(** * Kiosk media player (run.py): playback controller, frame producer,
      command channel and scaling, embedded from the Python source.

    The development follows the source file top-down in five modules:

    - [Scaling]      the size arithmetic of [display_image] and [update_frame]
                     (binary64 floats, as Python computes it);
    - [VideoThread]  the body of [VideoThread.run], one loop iteration per
                     poll of the decode session, and [stop];
    - [IPCServer]    what [IPCServerThread.run] does with one accepted
                     connection;
    - [Player]       [AdPlayerWindow]: the controller state and its slots;
    - [Client]       [send_ipc_command] and [main].

    Library calls (PIL, OpenCV, ffpyplayer, json, os.path, Qt geometry) are
    taken as an environment record or as the script of answers a session
    gives; everything the source itself computes is written out. *)

From Stdlib Require Import ZArith List String Ascii Bool Lia.
From Stdlib Require Import PrimFloat FloatOps SpecFloat Uint63.
From stdpp Require Import base option list strings gmap.

#[local] Set Warnings "-inexact-float".
Local Open Scope Z_scope.

(** ** Python numbers *)

Module Py.

(** [float(z)] for the integers the program divides: Qt geometry and PIL
    sizes are C ints, far below 2^53, where the conversion is exact.
    Durations, which are Python ints of any size, go through
    [float_ge_int] and [float_of_int] below instead. *)
Definition of_int (z : Z) : float :=
  if z <? 0 then PrimFloat.opp (PrimFloat.of_uint63 (Uint63.of_Z (- z)))
  else PrimFloat.of_uint63 (Uint63.of_Z z).

(** [a / b] on two ints: true division; [None] is ZeroDivisionError. *)
Definition truediv (a b : Z) : option float :=
  if b =? 0 then None else Some (PrimFloat.div (of_int a) (of_int b)).

(** [min(a, b)] and [max(a, b)]: the first argument is kept unless the
    second compares strictly better. *)
Definition min (a b : float) : float := if PrimFloat.ltb b a then b else a.
Definition max (a b : float) : float := if PrimFloat.ltb a b then b else a.

(** Magnitude of a finite binary64 value [m * 2^e], cut toward zero. *)
Definition trunc_mag (m : positive) (e : Z) : Z :=
  match e with
  | Z0 => Zpos m
  | Zpos p => Zpos m * 2 ^ Zpos p
  | Zneg p => Zpos m / 2 ^ Zpos p
  end.

(** [int(f)]: truncation toward zero; [None] is the OverflowError or
    ValueError that [int] raises on an infinity or a NaN. *)
Definition int (f : float) : option Z :=
  match Prim2SF f with
  | S754_zero _ => Some 0
  | S754_finite s m e => Some (if s then - trunc_mag m e else trunc_mag m e)
  | S754_infinity _ | S754_nan => None
  end.

(** Magnitude of [m * 2^e] rounded to the nearest integer, ties to even. *)
Definition round_mag (m : positive) (e : Z) : Z :=
  match e with
  | Z0 => Zpos m
  | Zpos p => Zpos m * 2 ^ Zpos p
  | Zneg p =>
      let q := Zpos m / 2 ^ Zpos p in
      let r := Zpos m mod 2 ^ Zpos p in
      let half := 2 ^ (Zpos p - 1) in
      if (half <? r) || ((r =? half) && Z.odd q) then q + 1 else q
  end.

(** [round(f)]: the nearest integer, as the specification words it. *)
Definition round (f : float) : option Z :=
  match Prim2SF f with
  | S754_zero _ => Some 0
  | S754_finite s m e => Some (if s then - round_mag m e else round_mag m e)
  | S754_infinity _ | S754_nan => None
  end.

(** [a // b] is floor division, which is [Z.div] for the divisor 2. *)
Definition floordiv (a b : Z) : Z := a / b.

(** [f >= n] for a float and an int of any size. Python compares the two
    exactly, without converting the int: a NaN is not above anything, the
    infinities are beyond every int, and a finite [m * 2^e] is compared
    with [n] after clearing the power of two. *)
Definition float_ge_int (f : float) (n : Z) : bool :=
  match Prim2SF f with
  | S754_nan => false
  | S754_infinity s => negb s
  | S754_zero _ => n <=? 0
  | S754_finite s m e =>
      let v := if s then Zneg m else Zpos m in
      match e with
      | Z0 => n <=? v
      | Zpos p => n <=? v * 2 ^ Zpos p
      | Zneg p => n * 2 ^ Zpos p <=? v
      end
  end.

(** The float an int of any size becomes in mixed arithmetic
    ([n + 0.00001]): the nearest binary64 value, ties to even; [None] is
    the OverflowError of an int beyond the largest float. *)
Definition float_of_int (z : Z) : option float :=
  match binary_normalize prec emax z 0 false with
  | S754_infinity _ => None
  | sf => Some (SF2Prim sf)
  end.

End Py.

(** ** Scaling: the size arithmetic of display_image and update_frame *)

Module Scaling.

(** A crop box as PIL takes it: (left, top, right, bottom). *)
Record box := Box { left : Z; top : Z; right : Z; bottom : Z }.

Definition box_width (b : box) : Z := right b - left b.
Definition box_height (b : box) : Z := bottom b - top b.

(** What [display_image] computes between reading the image size and
    building the pixmap: the size handed to [resize] and the box handed
    to [crop], if any. *)
Record geometry := Geometry { new_size : Z * Z; crop_box : option box }.

(** [scale * n] truncated: [int(img_width * scale)]. *)
Definition scaled (n : Z) (scale : float) : option Z :=
  Py.int (PrimFloat.mul (Py.of_int n) scale).

(** Lines 313-336 of [display_image]. [None] stands for an exception
    raised on the way, which the enclosing [try] turns into a log line. *)
Definition image_geometry (is_background : bool)
    (img_width img_height screen_width screen_height : Z) : option geometry :=
  rw ← Py.truediv screen_width img_width;
  rh ← Py.truediv screen_height img_height;
  let scale := if is_background then Py.max rw rh else Py.min rw rh in
  new_width ← scaled img_width scale;
  new_height ← scaled img_height scale;
  if is_background && ((screen_width <? new_width) || (screen_height <? new_height))
  then
    let l := Py.floordiv (new_width - screen_width) 2 in
    let t := Py.floordiv (new_height - screen_height) 2 in
    Some (Geometry (new_width, new_height)
            (Some (Box l t (l + screen_width) (t + screen_height))))
  else Some (Geometry (new_width, new_height) None).

(** Lines 402-405 of [update_frame]: the size handed to [cv2.resize]. *)
Definition frame_geometry (width height screen_width screen_height : Z)
    : option (Z * Z) :=
  rw ← Py.truediv screen_width width;
  rh ← Py.truediv screen_height height;
  let scale := Py.min rw rh in
  new_width ← scaled width scale;
  new_height ← scaled height scale;
  Some (new_width, new_height).

(** *** The computation as the specification words it *)

Inductive mode := Fit | Fill.

Definition mode_of (is_background : bool) : mode :=
  if is_background then Fill else Fit.

(** [scale = min(W/w, H/h)] for Fit, [max(W/w, H/h)] for Fill. *)
Definition fit_scale (m : mode) (w h W H : Z) : float :=
  let rw := PrimFloat.div (Py.of_int W) (Py.of_int w) in
  let rh := PrimFloat.div (Py.of_int H) (Py.of_int h) in
  match m with Fit => Py.min rw rh | Fill => Py.max rw rh end.

(** The centered crop rectangle of exactly the screen size. *)
Definition centered_crop (nw nh W H : Z) : box :=
  Box ((nw - W) / 2) ((nh - H) / 2) ((nw - W) / 2 + W) ((nh - H) / 2 + H).

(** [fit(imageSize, screenSize, mode)], parametrised by the conversion of
    a scaled length to an integer. *)
Definition fit_with (to_int : float → option Z) (m : mode) (w h W H : Z)
    : option geometry :=
  let s := fit_scale m w h W H in
  match to_int (PrimFloat.mul (Py.of_int w) s),
        to_int (PrimFloat.mul (Py.of_int h) s) with
  | Some nw, Some nh =>
      Some (Geometry (nw, nh)
              match m with
              | Fit => None
              | Fill => if (W <? nw) || (H <? nh)
                        then Some (centered_crop nw nh W H) else None
              end)
  | _, _ => None
  end.

(** The specification's wording: lengths are rounded. *)
Definition fit_rounded := fit_with Py.round.
(** What the code does: lengths are truncated. *)
Definition fit_truncated := fit_with Py.int.

End Scaling.

(** ** Shared data *)

(** A decoded RGB frame as numpy holds it: its shape and which picture it
  is. The pixel contents play no part in what the program decides. *)
Record frame := Frame { fr_id : nat; fr_width : Z; fr_height : Z }.

(** ** VideoThread.run: the frame producer *)

Module VideoThread.

(** The picture object of a decoded frame: [get_size()] and whether the
    conversion of lines 92-94 (get_size, to_bytearray, reshape) succeeds. *)
Record image := Image
  { img_id : nat; img_width : Z; img_height : Z; img_converts : bool }.

(** What the session answers in one pass: [self.player.get_frame()] at
    line 67 and, when that gave a picture, [self.player.get_pts()] at line
    88, whose value is the tick's [audio_pts]. Either call can raise; it
    does when [stop()] has set [self.player] to None in the meantime. *)
Inductive poll :=
| Eof                                      (* val == 'eof' *)
| Paused                                   (* val == 'paused' *)
| NotReady                                 (* frame_data is None *)
| Decoded (img : option image) (pts : float)  (* frame_data = (img, pts) *)
| Raised                                   (* get_frame() raised *)
| PtsRaised (img : image) (pts : float).   (* frame_data = (img, pts) with a
                                              picture, then get_pts() raised *)

(** Everything one pass of the [while] loop reads from outside: the stop
    flag at the loop head, the clock, the poll, the audio clock. *)
Record tick := Tick
  { running : bool; elapsed : float; got : poll; audio_pts : float }.

Inductive message :=
| MsgDurationLimit | MsgEndOfFile | MsgConversionError
| MsgPlaybackFinished (frame_count : nat) | MsgPlaybackError.

Inductive action :=
| Emit (f : frame)                  (* self.frame_ready.emit(frame_rgb) *)
| Sleep (seconds : float)           (* time.sleep *)
| Log (m : message)                 (* print *)
| Finished (last : option frame).   (* self.playback_finished.emit *)

(** The local variables of [run] that survive an iteration. *)
Record locals := Locals
  { last_frame : option frame; frame_count : nat; last_pts : float }.

Definition start_locals : locals := Locals None 0%nat 0%float.

(** Lines 105-119: what follows the emission of a frame. *)
Inductive sync :=
| SleepFor (seconds : float)   (* time.sleep(...), then last_pts = pts *)
| Skip                         (* continue: straight to the next poll *)
| Proceed.                     (* no sleep; last_pts = pts *)

Definition av_sync (pts audio : float) : sync :=
  if PrimFloat.ltb 0 audio && PrimFloat.ltb 0 pts then
    let delay := PrimFloat.sub pts audio in
    if PrimFloat.ltb 0.001 delay then SleepFor (Py.min delay 0.1)
    else if PrimFloat.ltb delay (-0.05) then Skip
    else Proceed
  else SleepFor 0.001.

Definition to_frame (i : image) : frame :=
  Frame (img_id i) (img_width i) (img_height i).

Inductive step_result :=
| Continue (out : list action) (l : locals)
| Break (out : list action) (l : locals).

(** One pass of the loop body, lines 58-121. *)
Definition iteration (duration : Z) (t : tick) (l : locals) : step_result :=
  if negb (running t) then
    Break [Log (MsgPlaybackFinished (frame_count l))] l
  else if (0 <? duration) && Py.float_ge_int (elapsed t) duration then
    Break [Log MsgDurationLimit; Log (MsgPlaybackFinished (frame_count l))] l
  else
    match got t with
    | Eof => Break [Log MsgEndOfFile; Log (MsgPlaybackFinished (frame_count l))] l
    | Paused => Continue [Sleep 0.01] l
    | NotReady => Continue [Sleep 0.002] l
    | Raised | PtsRaised _ _ => Break [Log MsgPlaybackError] l
    | Decoded None _ => Continue [] l
    | Decoded (Some img) pts =>
        if img_converts img then
          let f := to_frame img in
          let l1 := Locals (Some f) (S (frame_count l)) (last_pts l) in
          let l2 := Locals (Some f) (S (frame_count l)) pts in
          match av_sync pts (audio_pts t) with
          | SleepFor s => Continue [Emit f; Sleep s] l2
          | Skip => Continue [Emit f] l1
          | Proceed => Continue [Emit f] l2
          end
        else Continue [Log MsgConversionError] l
    end.

(** What one pass does to the outside. *)
Definition output (r : step_result) : list action :=
  match r with Continue out _ | Break out _ => out end.

(** The loop over the answers the environment gives, followed by the
    [finally] block once the loop is left. A script that ends before the
    loop does is a prefix of a run that is still going. *)
Fixpoint run_from (duration : Z) (script : list tick) (l : locals)
    : list action :=
  match script with
  | [] => []
  | t :: rest =>
      match iteration duration t l with
      | Continue out l' => out ++ run_from duration rest l'
      | Break out l' => out ++ [Finished (last_frame l')]
      end
  end.

Definition run (duration : Z) (script : list tick) : list action :=
  run_from duration script start_locals.

(** The whole of [run], lines 38-143, from the creation of the session.
    When [MediaPlayer(...)] raises at line 45 the loop is never entered
    and [last_frame] is never bound: the handler logs the error, and the
    [finally] block fails on its read of [last_frame], so the thread ends
    without sending [playback_finished]. *)
Definition run_thread (opens : bool) (duration : Z) (script : list tick)
    : list action :=
  if opens then run duration script else [Log MsgPlaybackError].

(** The frames handed to the controller, in the order of emission. *)
Fixpoint emitted (out : list action) : list frame :=
  match out with
  | [] => []
  | Emit f :: rest => f :: emitted rest
  | _ :: rest => emitted rest
  end.

(** The sleeps taken, in order. *)
Fixpoint sleeps (out : list action) : list float :=
  match out with
  | [] => []
  | Sleep s :: rest => s :: sleeps rest
  | _ :: rest => sleeps rest
  end.

(** *** The specification's view of the same loop *)

(** The loop is left at this tick. *)
Definition leaves (duration : Z) (t : tick) : bool :=
  negb (running t)
  || ((0 <? duration) && Py.float_ge_int (elapsed t) duration)
  || match got t with Eof | Raised | PtsRaised _ _ => true | _ => false end.

(** The frame a tick decodes and converts, if it does. *)
Definition converted (t : tick) : option frame :=
  match got t with
  | Decoded (Some img) _ => if img_converts img then Some (to_frame img) else None
  | _ => None
  end.

(** The decoded and converted frames, in decode order, up to the exit. *)
Fixpoint decoded_frames (duration : Z) (script : list tick) : list frame :=
  match script with
  | [] => []
  | t :: rest =>
      if leaves duration t then []
      else match converted t with
           | Some f => f :: decoded_frames duration rest
           | None => decoded_frames duration rest
           end
  end.

(** Video lags audio by more than 50 ms. *)
Definition lags (pts audio : float) : bool :=
  PrimFloat.ltb (PrimFloat.sub pts audio) (-0.05).

(** The synchronisation policy as the specification words it: the 1 ms
    floor sleep in every case that is neither ahead nor behind. *)
Definition av_sync_spec (pts audio : float) : sync :=
  let both := PrimFloat.ltb 0 audio && PrimFloat.ltb 0 pts in
  let delay := PrimFloat.sub pts audio in
  if both && PrimFloat.ltb 0.001 delay then SleepFor (Py.min delay 0.1)
  else if both && PrimFloat.ltb delay (-0.05) then Skip
  else SleepFor 0.001.

(** The [playback_finished] signals sent, in order. *)
Fixpoint finished (out : list action) : list (option frame) :=
  match out with
  | [] => []
  | Finished l :: rest => l :: finished rest
  | _ :: rest => finished rest
  end.

(** [stop()], lines 145-153, is called from the GUI thread while the loop
    runs: it clears [self.running], closes the session and sets
    [self.player] to None. Every later look at [self.running] reads
    False. *)
Definition stop_requested (t : tick) : tick :=
  Tick false (elapsed t) (got t) (audio_pts t).

(** Where [stop()] lands in the pass the loop is in. *)
Inductive landing :=
| AtGetFrame       (* [self.player] is None when line 67 is reached *)
| AtGetPts         (* [self.player] is None when line 88 is reached *)
| AfterSession     (* the pass has made its last use of the session *)
| WhileClosing (g : poll) (audio : float).
                   (* the session is closed under a call of the pass: what
                      the call answers is the library's business *)

(** What the pass reads from outside when [stop()] lands in it: the loop
    head and the clock were read before. *)
Definition landed (w : landing) (t : tick) : tick :=
  match w with
  | AtGetFrame => Tick (running t) (elapsed t) Raised (audio_pts t)
  | AtGetPts =>
      match got t with
      | Decoded (Some img) pts =>
          Tick (running t) (elapsed t) (PtsRaised img pts) (audio_pts t)
      | _ => t                 (* line 88 is not reached in this pass *)
      end
  | AfterSession => t
  | WhileClosing g audio => Tick (running t) (elapsed t) g audio
  end.

(** The answers the loop sees when [stop()] is called during its pass
    number [n]. *)
Definition stopped_during (n : nat) (w : landing) (script : list tick)
    : list tick :=
  take n script ++ (landed w <$> take 1 (drop n script))
  ++ (stop_requested <$> drop (S n) script).

End VideoThread.

(** ** IPCServerThread.run: the command channel *)

Module IPCServer.

(** The values a decoded command holds under its keys. Values the program
    never inspects beyond their truth value are kept as [POther]. *)
Inductive pyval :=
| PNone
| PBool (b : bool)
| PInt (z : Z)
| PStr (s : string)
| POther (truthy : bool).

#[global] Instance pyval_eq_dec : EqDecision pyval.
Proof. solve_decision. Defined.

(** What [json.loads] returns: a dict, or some other JSON value. *)
Inductive parsed :=
| PObject (d : gmap string pyval)
| PNotObject.

(** How a call of [json.loads] ends. Line 192 catches the first
    exception only; anything else the call raises goes to the handler of
    line 199. *)
Inductive loaded :=
| Returns (command : parsed)
| JSONDecodeError          (* the text is not JSON *)
| OtherError.              (* any other exception: the RecursionError on
                              brackets nested about a thousand deep *)

(** The two library decoders of line 182 and line 186. [None] is the
    UnicodeDecodeError of [decode]. The two laws are facts of the
    libraries: no bytes decode to the empty text, and the empty text is
    not JSON. *)
Record Codec := MkCodec
  { utf8_decode : list Byte.byte → option string;
    json_loads : string → loaded;
    utf8_decode_nil : utf8_decode [] = Some EmptyString;
    json_loads_empty : json_loads EmptyString = JSONDecodeError }.

Inductive message :=
| MsgReceived (command : parsed)   (* "Received command: ..." *)
| MsgInvalidJSON                   (* "Invalid JSON: ..." *)
| MsgIPCError.                     (* "IPC error: ..." *)

Inductive action :=
| Log (m : message)
| Emit (command : gmap string pyval)   (* self.command_received.emit *)
| Send (reply : string)                (* client_socket.send *)
| Close.                               (* client_socket.close *)

(** Lines 181-201 for one accepted connection whose [recv] returned
    [received] and whose [send] and [close] go through. An exception that
    reaches the outer handler is logged and skips both the reply and the
    close; emitting anything but a dict through a signal declared
    [pyqtSignal(dict)] is such an exception, and so is anything but a
    JSONDecodeError raised by [json.loads]. *)
Definition serve (C : Codec) (received : list Byte.byte) : list action :=
  match utf8_decode C received with
  | None => [Log MsgIPCError]
  | Some data =>
      if decide (data = EmptyString) then [Close]
      else
        match json_loads C data with
        | Returns (PObject d) =>
            [Log (MsgReceived (PObject d)); Emit d; Send "OK"; Close]
        | Returns PNotObject => [Log (MsgReceived PNotObject); Log MsgIPCError]
        | JSONDecodeError => [Log MsgInvalidJSON; Send "ERROR"; Close]
        | OtherError => [Log MsgIPCError]
        end
  end.

(** The replies written to the client, in order. *)
Fixpoint replies (out : list action) : list string :=
  match out with
  | [] => []
  | Send r :: rest => r :: replies rest
  | _ :: rest => replies rest
  end.

(** The commands handed to the controller, in order. *)
Fixpoint dispatched (out : list action) : list (gmap string pyval) :=
  match out with
  | [] => []
  | Emit d :: rest => d :: dispatched rest
  | _ :: rest => dispatched rest
  end.

Definition closes (out : list action) : bool :=
  existsb (λ a, match a with Close => true | _ => false end) out.

(** The payload is in the expected structured format: text that
    [json.loads] turns into a dict. *)
Definition well_formed (C : Codec) (received : list Byte.byte)
    (d : gmap string pyval) : Prop :=
  ∃ data, utf8_decode C received = Some data
          ∧ json_loads C data = Returns (PObject d).

(** The payload cannot be parsed: it is not text, or [json.loads] raises
    on it. *)
Definition unparseable (C : Codec) (received : list Byte.byte) : Prop :=
  match utf8_decode C received with
  | None => True
  | Some data => ∀ v, json_loads C data ≠ Returns v
  end.

End IPCServer.

(** ** AdPlayerWindow: the playback controller *)

Module Player.

Export IPCServer (pyval, PNone, PBool, PInt, PStr, POther).

(** The library calls the controller makes. *)
Record Env := MkEnv
  { path_exists : string → bool;            (* os.path.exists *)
    suffix_lower : string → string;         (* Path(p).suffix.lower() *)
    image_open : string → option (Z * Z);   (* Image.open and convert: the
                                               size, or an exception *)
    screen_geometry : Z * Z;                (* primaryScreen().geometry() *)
    label_size : Z * Z }.                   (* self.label.size() *)

(** What the label shows. *)
Inductive pixmap :=
| PixImage (path : string) (g : Scaling.geometry)
| PixFrame (f : frame) (size : Z * Z).

(** [self.pending_command]. *)
Inductive pending :=
| PendPlay (file : string) (duration : Z) (is_image : bool)
| PendBackground.

(** A [VideoThread] object: its arguments, its [running] flag and whether
    [isRunning()] holds, that is, whether its [run] has not yet returned. *)
Record vthread := VThread
  { vt_path : string; vt_duration : Z; vt_running : bool; vt_alive : bool }.

Inductive message :=
| MsgFileNotFound (path : string)
| MsgPlaying (path : string) (duration : Z)
| MsgStopping
| MsgImageSizeAdjusted (g : Scaling.geometry)
| MsgBackgroundCropped
| MsgErrorDisplayingImage (path : option string)
| MsgVideoSizeAdjusted (size : Z * Z)
| MsgErrorUpdatingFrame
| MsgHoldingLastFrame.

(** What the controller does to the outside, in program order. *)
Inductive effect :=
| Log (m : message)                 (* print *)
| SetPixmap (p : pixmap)            (* self.label.setPixmap *)
| ThreadStart (id : nat) (path : string)   (* self.video_thread.start() *)
| FadeStart (from to : float)       (* setStartValue, setEndValue, start *)
| CloseWindow.                      (* event.accept() in closeEvent *)

Record state := State
  { background_image : option string;
    current_file : option string;
    video_thread : option nat;        (* index into [threads] *)
    is_transitioning : bool;
    pending_command : option pending;
    media_timer : option Z;           (* the running interval in ms *)
    label_pixmap : option pixmap;
    cached_video_size : option (Z * Z);
    cached_display_size : option (Z * Z);
    threads : list vthread;           (* every VideoThread created so far *)
    ipc_running : bool;               (* the IPC thread's flag *)
    trace : list effect }.

(** [AdPlayerWindow.__init__]. *)
Definition init_state (background : option string) : state :=
  State background None None false None None None None None [] true [].

(** *** Field updates *)

Definition set_current_file (v : option string) (s : state) : state :=
  State (background_image s) v (video_thread s) (is_transitioning s)
    (pending_command s) (media_timer s) (label_pixmap s) (cached_video_size s)
    (cached_display_size s) (threads s) (ipc_running s) (trace s).

Definition set_video_thread (v : option nat) (s : state) : state :=
  State (background_image s) (current_file s) v (is_transitioning s)
    (pending_command s) (media_timer s) (label_pixmap s) (cached_video_size s)
    (cached_display_size s) (threads s) (ipc_running s) (trace s).

Definition set_is_transitioning (v : bool) (s : state) : state :=
  State (background_image s) (current_file s) (video_thread s) v
    (pending_command s) (media_timer s) (label_pixmap s) (cached_video_size s)
    (cached_display_size s) (threads s) (ipc_running s) (trace s).

Definition set_pending_command (v : option pending) (s : state) : state :=
  State (background_image s) (current_file s) (video_thread s)
    (is_transitioning s) v (media_timer s) (label_pixmap s)
    (cached_video_size s) (cached_display_size s) (threads s) (ipc_running s)
    (trace s).

Definition set_media_timer (v : option Z) (s : state) : state :=
  State (background_image s) (current_file s) (video_thread s)
    (is_transitioning s) (pending_command s) v (label_pixmap s)
    (cached_video_size s) (cached_display_size s) (threads s) (ipc_running s)
    (trace s).

Definition set_label_pixmap (v : option pixmap) (s : state) : state :=
  State (background_image s) (current_file s) (video_thread s)
    (is_transitioning s) (pending_command s) (media_timer s) v
    (cached_video_size s) (cached_display_size s) (threads s) (ipc_running s)
    (trace s).

Definition set_cache (key size : option (Z * Z)) (s : state) : state :=
  State (background_image s) (current_file s) (video_thread s)
    (is_transitioning s) (pending_command s) (media_timer s) (label_pixmap s)
    key size (threads s) (ipc_running s) (trace s).

Definition set_threads (v : list vthread) (s : state) : state :=
  State (background_image s) (current_file s) (video_thread s)
    (is_transitioning s) (pending_command s) (media_timer s) (label_pixmap s)
    (cached_video_size s) (cached_display_size s) v (ipc_running s) (trace s).

Definition set_ipc_running (v : bool) (s : state) : state :=
  State (background_image s) (current_file s) (video_thread s)
    (is_transitioning s) (pending_command s) (media_timer s) (label_pixmap s)
    (cached_video_size s) (cached_display_size s) (threads s) v (trace s).

(** Append to the trace. *)
Definition emit (es : list effect) (s : state) : state :=
  State (background_image s) (current_file s) (video_thread s)
    (is_transitioning s) (pending_command s) (media_timer s) (label_pixmap s)
    (cached_video_size s) (cached_display_size s) (threads s) (ipc_running s)
    (trace s ++ es).

(** [self.label.setPixmap(pixmap)]. *)
Definition show (p : pixmap) (s : state) : state :=
  emit [SetPixmap p] (set_label_pixmap (Some p) s).

(** The file an effect puts on screen, if it does: an image by its pixmap,
    a video by the start of its producer. *)
Definition displayed (e : effect) : option string :=
  match e with
  | SetPixmap (PixImage path _) => Some path
  | ThreadStart _ path => Some path
  | _ => None
  end.

(** The files a run of effects puts on screen, in order. *)
Definition displayed_files (es : list effect) : list string :=
  omap displayed es.

(** The fade-outs a run of effects starts. *)
Fixpoint fade_outs (es : list effect) : nat :=
  match es with
  | [] => 0%nat
  | FadeStart from to :: rest =>
      ((if PrimFloat.ltb to from then 1 else 0) + fade_outs rest)%nat
  | _ :: rest => fade_outs rest
  end.

(** Python's truth value of a command field. *)
Definition truthy (v : option pyval) : bool :=
  match v with
  | None | Some PNone => false
  | Some (PBool b) => b
  | Some (PInt z) => negb (z =? 0)
  | Some (PStr s) => negb (String.eqb s EmptyString)
  | Some (POther b) => b
  end.

(** Line 447: the extensions of an image file. *)
Definition image_extensions : list string :=
  [".jpg"; ".jpeg"; ".png"; ".bmp"; ".gif"; ".webp"]%string.

Definition is_image_ext (ext : string) : bool :=
  existsb (String.eqb ext) image_extensions.

(** A Python int handed to a Qt method that takes a C [int], such as
    [QTimer.start]: outside the 32-bit range the call raises
    OverflowError. *)
Definition qt_int (z : Z) : option Z :=
  if (-2147483648 <=? z) && (z <=? 2147483647) then Some z else None.

(** [cv2.resize] and PIL's [resize] both refuse a size below 1x1. *)
Definition resizable (size : Z * Z) : bool :=
  (1 <=? size.1) && (1 <=? size.2).

(** ** Threads *)

(** [stop()] followed by [wait()]: the flag is cleared and [run] has
    returned when [wait] does. *)
Definition stopped (t : vthread) : vthread :=
  VThread (vt_path t) (vt_duration t) false false.

(** [run] returned by itself (end of file, duration cap, session fault). *)
Definition exited (t : vthread) : vthread :=
  VThread (vt_path t) (vt_duration t) (vt_running t) false.

(** The number of producers whose [run] has not returned. *)
Fixpoint alive_count (ts : list vthread) : nat :=
  match ts with
  | [] => 0%nat
  | t :: rest => ((if vt_alive t then 1 else 0) + alive_count rest)%nat
  end.

(** The guard that occurs four times in the source:
    [if self.video_thread and self.video_thread.isRunning():
        self.video_thread.stop(); self.video_thread.wait()]. *)
Definition stop_video_thread (s : state) : state :=
  match video_thread s with
  | Some i =>
      match threads s !! i with
      | Some t => if vt_alive t then set_threads (<[i := stopped t]> (threads s)) s
                  else s
      | None => s
      end
  | None => s
  end.

Section Controller.

Context (E : Env).

(** Lines 301-310: the screen size, with the fallback to the label. *)
Definition screen_size : Z * Z :=
  if (screen_geometry E).1 <=? 0 then label_size E
  else if (screen_geometry E).2 <=? 0 then label_size E
  else screen_geometry E.

(** [display_image], lines 289-356. Every exception ends in the handler
    of line 355; the one [QTimer.start] raises on an interval beyond a C
    int comes after [setPixmap], so the new pixmap stays and the timer is
    not armed. *)
Definition display_image (image_path : option string) (duration : Z)
    (is_background : bool) (s : state) : state :=
  match image_path ≫= image_open E with
  | None => emit [Log (MsgErrorDisplayingImage image_path)] s
  | Some (img_width, img_height) =>
      match Scaling.image_geometry is_background img_width img_height
              screen_size.1 screen_size.2 with
      | None => emit [Log (MsgErrorDisplayingImage image_path)] s
      | Some g =>
          let s1 := emit [Log (MsgImageSizeAdjusted g)] s in
          if resizable (Scaling.new_size g) then
            let s2 := match Scaling.crop_box g with
                      | Some _ => emit [Log MsgBackgroundCropped] s1
                      | None => s1
                      end in
            let s3 := show (PixImage (default EmptyString image_path) g) s2 in
            if 0 <? duration then
              match qt_int (duration * 1000) with
              | Some msec => set_media_timer (Some msec) s3
              | None => emit [Log (MsgErrorDisplayingImage image_path)] s3
              end
            else s3
          else emit [Log (MsgErrorDisplayingImage image_path)] s1
      end
  end.

(** The pixmap [display_image] builds for a file, when it gets as far as
    [setPixmap]: the file opens, the arithmetic raises nothing and the
    size can be resized to. *)
Definition image_pixmap (path : string) (is_background : bool) : option pixmap :=
  size ← image_open E path;
  g ← Scaling.image_geometry is_background size.1 size.2
         screen_size.1 screen_size.2;
  if resizable (Scaling.new_size g) then Some (PixImage path g) else None.

(** [display_initial_background], lines 268-271. *)
Definition display_initial_background (s : state) : state :=
  match background_image s with
  | Some bg =>
      if negb (String.eqb bg EmptyString) && path_exists E bg
      then display_image (Some bg) 0 true s
      else s
  | None => s
  end.

(** [display_video], lines 358-379. The new thread takes the next index. *)
Definition display_video (video_path : string) (duration : Z) (s : state)
    : state :=
  let s1 := stop_video_thread s in
  let s2 := set_cache None None s1 in
  let id := length (threads s2) in
  let s3 := set_threads (threads s2 ++ [VThread video_path duration true true]) s2 in
  emit [ThreadStart id video_path] (set_video_thread (Some id) s3).

(** [update_frame], lines 381-432. *)
Definition update_frame (f : frame) (s : state) : state :=
  let key := (fr_width f, fr_height f) in
  let sized :=
    if decide (cached_video_size s = Some key) then
      match cached_display_size s with
      | Some size => Some (s, size)
      | None => None
      end
    else
      match Scaling.frame_geometry (fr_width f) (fr_height f)
              screen_size.1 screen_size.2 with
      | Some size =>
          Some (emit [Log (MsgVideoSizeAdjusted size)]
                  (set_cache (Some key) (Some size) s), size)
      | None => None
      end in
  match sized with
  | Some (s1, size) =>
      if resizable size then show (PixFrame f size) s1
      else emit [Log MsgErrorUpdatingFrame] s1
  | None => emit [Log MsgErrorUpdatingFrame] s
  end.

(** [fade_in], lines 495-499. *)
Definition fade_in (s : state) : state := emit [FadeStart 0 1] s.

(** [fade_out], lines 501-515. *)
Definition fade_out (s : state) : state :=
  if is_transitioning s then s
  else
    let s1 := set_is_transitioning true s in
    let s2 := stop_video_thread s1 in
    emit [FadeStart 1 0] s2.

(** [play_media], lines 434-462. [opacity] is what
    [self.opacity_effect.opacity()] reads when the call is made. *)
Definition play_media (opacity : float) (filepath : string) (duration : Z)
    (s : state) : state :=
  if negb (path_exists E filepath) then emit [Log (MsgFileNotFound filepath)] s
  else
    let s1 := emit [Log (MsgPlaying filepath duration)] s in
    let s2 := set_media_timer None s1 in
    let is_image := is_image_ext (suffix_lower E filepath) in
    let s3 := set_current_file (Some filepath) s2 in
    if PrimFloat.ltb 0 opacity then
      fade_out (set_pending_command (Some (PendPlay filepath duration is_image)) s3)
    else
      fade_in (if is_image then display_image (Some filepath) duration false s3
               else display_video filepath duration s3).

(** The test of line 477 on the configured background. *)
Definition background_available (s : state) : bool :=
  match background_image s with
  | Some bg => negb (String.eqb bg EmptyString) && path_exists E bg
  | None => false
  end.

(** [stop_playback], lines 464-479. *)
Definition stop_playback (return_to_background : bool) (s : state) : state :=
  let s1 := emit [Log MsgStopping] s in
  let s2 := set_media_timer None s1 in
  let s3 := stop_video_thread s2 in
  if return_to_background && background_available s3
  then fade_out (set_pending_command (Some PendBackground) s3)
  else s3.

(** [on_media_timeout], lines 481-485. *)
Definition on_media_timeout (s : state) : state := set_media_timer None s.

(** [on_video_finished], lines 487-493. The empty array that a producer
    sends when it never decoded a frame is [None]. *)
Definition on_video_finished (last_frame : option frame) (s : state) : state :=
  match last_frame with
  | Some f => emit [Log MsgHoldingLastFrame] (update_frame f s)
  | None => s
  end.

(** [on_fade_finished], lines 517-535. *)
Definition on_fade_finished (s : state) : state :=
  let s1 :=
    match pending_command s with
    | Some cmd =>
        let s0 := set_pending_command None s in
        match cmd with
        | PendPlay file duration is_image =>
            fade_in (if is_image then display_image (Some file) duration false s0
                     else display_video file duration s0)
        | PendBackground =>
            fade_in (display_image (background_image s0) 0 true s0)
        end
    | None => s
    end in
  set_is_transitioning false s1.

(** [closeEvent], lines 542-554, reached through [self.close()]. *)
Definition close (s : state) : state :=
  emit [CloseWindow] (stop_video_thread (set_ipc_running false s)).

(** [handle_ipc_command], lines 273-287. [None] marks a command whose
    [file] is a true value that is not text, or whose [duration] is not an
    integer: what the slots do with those is outside this model. *)
Definition handle_ipc_command (opacity : float) (command : gmap string pyval)
    (s : state) : option state :=
  let cmd_type := command !! "command"%string in
  if decide (cmd_type = Some (PStr "PLAY")) then
    let filepath := command !! "file"%string in
    let duration := default (PInt 0) (command !! "duration"%string) in
    if truthy filepath then
      match filepath, duration with
      | Some (PStr file), PInt d => Some (play_media opacity file d s)
      | _, _ => None
      end
    else Some s
  else if decide (cmd_type = Some (PStr "STOP")) then Some (stop_playback true s)
  else if decide (cmd_type = Some (PStr "EXIT")) then Some (close s)
  else Some s.

(** ** The event loop of the GUI thread *)

Inductive event :=
| Command (command : gmap string pyval) (opacity : float)
                                   (* command_received *)
| MediaTimeout                     (* media_timer.timeout *)
| FadeFinished                     (* fade_animation.finished *)
| FrameReady (f : frame)           (* frame_ready *)
| PlaybackFinished (last : option frame)   (* playback_finished *)
| ThreadExited (id : nat)          (* a producer's run returned *)
| InitialBackground.               (* the single shot of __init__ *)

Definition thread_exited (id : nat) (s : state) : state :=
  match threads s !! id with
  | Some t => set_threads (<[id := exited t]> (threads s)) s
  | None => s
  end.

Definition step (s : state) (ev : event) : option state :=
  match ev with
  | Command c opacity => handle_ipc_command opacity c s
  | MediaTimeout => Some (on_media_timeout s)
  | FadeFinished => Some (on_fade_finished s)
  | FrameReady f => Some (update_frame f s)
  | PlaybackFinished last => Some (on_video_finished last s)
  | ThreadExited id => Some (thread_exited id s)
  | InitialBackground => Some (display_initial_background s)
  end.

Fixpoint run (evs : list event) (s : state) : option state :=
  match evs with
  | [] => Some s
  | ev :: rest =>
      match step s ev with
      | Some s' => run rest s'
      | None => None
      end
  end.

End Controller.



(** The number of fades a list of events reports finished. *)
Fixpoint fades_finished (evs : list event) : nat :=
  match evs with
  | [] => 0%nat
  | FadeFinished :: rest => S (fades_finished rest)
  | _ :: rest => fades_finished rest
  end.

(** At most one session: a producer that is still running is the one the
    controller holds in [self.video_thread]. *)
Definition single_session (s : state) : Prop :=
  ∀ i t, threads s !! i = Some t → vt_alive t = true → video_thread s = Some i.

(** Everything of the controller state except its trace. *)
Definition same_state (s s' : state) : Prop :=
  background_image s' = background_image s
  ∧ current_file s' = current_file s
  ∧ video_thread s' = video_thread s
  ∧ is_transitioning s' = is_transitioning s
  ∧ pending_command s' = pending_command s
  ∧ media_timer s' = media_timer s
  ∧ label_pixmap s' = label_pixmap s
  ∧ cached_video_size s' = cached_video_size s
  ∧ cached_display_size s' = cached_display_size s
  ∧ threads s' = threads s
  ∧ ipc_running s' = ipc_running s.

(** The pixmap [update_frame] builds for a frame when nothing is cached:
    the frame at the Fit size of its own shape. *)
Definition frame_pixmap (E : Env) (f : frame) : option pixmap :=
  size ← Scaling.frame_geometry (fr_width f) (fr_height f)
            (screen_size E).1 (screen_size E).2;
  if resizable size then Some (PixFrame f size) else None.

(** The display-size cache holds what [update_frame] would compute. *)
Definition cache_consistent (E : Env) (s : state) : Prop :=
  ∀ key, cached_video_size s = Some key →
    ∃ size, cached_display_size s = Some size
      ∧ Scaling.frame_geometry key.1 key.2 (screen_size E).1 (screen_size E).2
        = Some size.

(** A recorded request has a fade-out in flight that will apply it. *)
Definition pending_is_fading (s : state) : Prop :=
  pending_command s ≠ None → is_transitioning s = true.

(** The command channel end to end: the server's actions on one
    connection, and the controller after the commands it dispatched have
    been handled; [opacity] is what the label's opacity reads then. *)
Definition receive (E : Env) (C : IPCServer.Codec) (opacity : float)
    (received : list Byte.byte) (s : state)
    : list IPCServer.action * option state :=
  let out := IPCServer.serve C received in
  (out, run E (map (λ d, Command d opacity) (IPCServer.dispatched out)) s).

End Player.

(** ** The command line client: send_ipc_command and main *)

Module Client.

Import IPCServer.

(** The commands [main] builds, lines 652, 671 and 682. *)
Definition play_request (filepath : string) (duration : Z) : gmap string pyval :=
  <[ "command"%string := PStr "PLAY" ]>
    (<[ "file"%string := PStr filepath ]>
       {[ "duration"%string := PInt duration ]}).

Definition stop_request : gmap string pyval :=
  {[ "command"%string := PStr "STOP" ]}.

Definition exit_request : gmap string pyval :=
  {[ "command"%string := PStr "EXIT" ]}.

(** What the client's [recv(1024).decode()] of line 568 returns for the
    server's actions on its connection: the first reply; the empty text
    if the server closes without one; [None], the timeout of line 561, if
    the server does neither. *)
Fixpoint response (out : list action) : option string :=
  match out with
  | [] => None
  | Send r :: _ => Some r
  | Close :: _ => Some EmptyString
  | _ :: rest => response rest
  end.

(** [send_ipc_command], lines 557-574, against a server that is
    [listening] or not. [dumps] is [json.dumps(command).encode('utf-8')];
    the server reads at most 4096 bytes of it (line 182), the payload
    arriving in one piece. Any exception gives [False]. *)
Definition send_ipc_command (C : Codec)
    (dumps : gmap string pyval → list Byte.byte) (listening : bool)
    (command : gmap string pyval) : bool * list action :=
  if listening then
    let out := serve C (take 4096 (dumps command)) in
    (bool_decide (response out = Some "OK"%string), out)
  else (false, []).

(** The parsed command line: [--start BACKGROUND], [--play FILE DURATION],
    [--stop], [--exit], [--single-instance]. *)
Record options := Options
  { opt_start : option string;
    opt_play : option (string * string);
    opt_stop : bool;
    opt_exit : bool;
    opt_single_instance : bool }.

(** How [main] ends. *)
Inductive outcome :=
| Gui (background : string) (killed_existing : bool)
      (* the window runs; kill_existing_instance was called first or not *)
| Exited (code : Z) (sent : option (gmap string pyval)) (acknowledged : bool)
         (waited : option float)
| Uncaught (sent : option (gmap string pyval)).
      (* int(), the addition of line 658 or time.sleep raised; the command
         was sent before or not *)

(** [main], lines 623-692. [parse_int] is [int(duration)],
    [instance_running] is [is_instance_running()], [send] is
    [send_ipc_command], and [sleep] tells whether [time.sleep] returns for
    a length: it raises on a negative one and on one too long for the
    platform's clock. *)
Definition main (parse_int : string → option Z) (instance_running : bool)
    (send : gmap string pyval → bool) (sleep : float → bool) (a : options)
    : outcome :=
  let start := match opt_start a with
               | Some bg => if String.eqb bg EmptyString then None else Some bg
               | None => None
               end in
  match start with
  | Some bg => Gui bg (opt_single_instance a && instance_running)
  | None =>
      match opt_play a with
      | Some (filepath, duration) =>
          match parse_int duration with
          | None => Uncaught None
          | Some d =>
              if instance_running then
                let command := play_request filepath d in
                if send command then
                  match Py.float_of_int d with
                  | Some seconds =>
                      let wait_time := PrimFloat.add seconds 0.00001 in
                      if sleep wait_time
                      then Exited 0 (Some command) true (Some wait_time)
                      else Uncaught (Some command)
                  | None => Uncaught (Some command)
                  end
                else Exited 0 (Some command) false None
              else Exited 1 None false None
          end
      | None =>
          if opt_stop a then
            if instance_running
            then Exited 0 (Some stop_request) (send stop_request) None
            else Exited 0 None false None
          else if opt_exit a then
            if instance_running
            then Exited 0 (Some exit_request) (send exit_request) None
            else Exited 0 None false None
          else Exited 1 None false None
      end
  end.

(** The command [main] put on the channel, if any. *)
Definition sent (o : outcome) : option (gmap string pyval) :=
  match o with
  | Gui _ _ => None
  | Exited _ c _ _ => c
  | Uncaught c => c
  end.

End Client.

(** ** Concrete inputs

    A small installation used to run the definitions: a 1280x720 screen, a
    background and a few media files, and the handful of payloads the
    examples send. Both records agree with the libraries on every input
    the examples give them. *)

Module Examples.

Import Player.

Definition files : list (string * option (Z * Z)) :=
  [ ("bg.png", Some (800, 600)); ("a.png", Some (1920, 1080));
    ("b.png", Some (1000, 700)); ("broken.png", None);
    ("a.mp4", None); ("b.mp4", None) ]%string.

Definition lookup_file (p : string) : option (option (Z * Z)) :=
  snd <$> find (λ e, String.eqb (fst e) p) files.

(** The part of a file name from its last dot on, in lower case; the
    names above are lower case and have one dot. *)
Fixpoint from_last_dot (s : string) : string :=
  match s with
  | EmptyString => EmptyString
  | String c rest =>
      match from_last_dot rest with
      | EmptyString => if Ascii.eqb c "."%char then s else EmptyString
      | ext => ext
      end
  end.

Definition env : Env :=
  MkEnv (λ p, bool_decide (is_Some (lookup_file p)))
        from_last_dot
        (λ p, mjoin (lookup_file p))
        (1280, 720) (1280, 720).

Definition quote : string := String (ascii_of_nat 34) EmptyString.

(** The text [{"command": "STOP"}]. *)
Definition stop_text : string :=
  ("{" ++ quote ++ "command" ++ quote ++ ": " ++ quote ++ "STOP" ++ quote ++ "}")%string.

(** The text [{"command": "PAUSE"}]. *)
Definition pause_text : string :=
  ("{" ++ quote ++ "command" ++ quote ++ ": " ++ quote ++ "PAUSE" ++ quote ++ "}")%string.

Definition stop_command : gmap string pyval := {[ "command"%string := PStr "STOP" ]}.
Definition pause_command : gmap string pyval := {[ "command"%string := PStr "PAUSE" ]}.

Definition play_command (file : string) (duration : Z) : gmap string pyval :=
  <[ "command"%string := PStr "PLAY" ]>
    (<[ "file"%string := PStr file ]> {[ "duration"%string := PInt duration ]}).

(** A PLAY command that names no file. *)
Definition play_nothing : gmap string pyval := {[ "command"%string := PStr "PLAY" ]}.

Definition ascii_text (bs : list Byte.byte) : option string :=
  if forallb (λ b, Nat.ltb (Byte.to_nat b) 128) bs
  then Some (string_of_list_byte bs) else None.

(** [n] opening brackets. *)
Fixpoint brackets (n : nat) : string :=
  match n with
  | O => EmptyString
  | S k => String "["%char (brackets k)
  end.

(** 1100 nested brackets: within the 4096 bytes the server reads, and
    deeper than the interpreter's recursion limit lets [json.loads] go. *)
Definition deep_text : string := brackets 1100.

Definition loads (s : string) : IPCServer.loaded :=
  if String.eqb s stop_text then IPCServer.Returns (IPCServer.PObject stop_command)
  else if String.eqb s pause_text
  then IPCServer.Returns (IPCServer.PObject pause_command)
  else if String.eqb s "42" then IPCServer.Returns IPCServer.PNotObject
  else if String.eqb s deep_text then IPCServer.OtherError
  else IPCServer.JSONDecodeError.

Definition codec : IPCServer.Codec :=
  IPCServer.MkCodec ascii_text loads eq_refl eq_refl.

Definition bytes_of (s : string) : list Byte.byte := list_byte_of_string s.

(** Four decoded pictures with the timestamps 0, 1, 2, 3 and the audio
    clock at 3.1 throughout. *)
Definition picture (n : nat) : VideoThread.image := VideoThread.Image n 640 480 true.

Definition lagging_tick (n : nat) (pts : float) : VideoThread.tick :=
  VideoThread.Tick true 0 (VideoThread.Decoded (Some (picture n)) pts) 3.1.

Definition lagging_script : list VideoThread.tick :=
  [lagging_tick 0 0; lagging_tick 1 1; lagging_tick 2 2; lagging_tick 3 3].

(** The controller at start-up, with the background configured. *)
Definition started : state := init_state (Some "bg.png"%string).

(** Two videos played one after the other, each fade run to its end. *)
Definition two_plays : list event :=
  [ InitialBackground;
    Command (play_command "a.mp4" 5) 1; FadeFinished; FadeFinished;
    FrameReady (Frame 0 640 480);
    Command (play_command "b.mp4" 5) 1; FadeFinished; FadeFinished ].

Definition after_two_plays : state := default started (run env two_plays started).


(** A fade-out in flight: Play(a.png) has just been handled. *)
Definition fading : state := play_media env 1 "a.png" 5 started.

(** [json.dumps(...).encode()] on the one command the examples send. *)
Definition dumps (command : gmap string pyval) : list Byte.byte :=
  if decide (command = Client.stop_request) then bytes_of stop_text else [].

(** A video playing, its producer running and one frame rendered. *)
Definition video_playing : state :=
  default started
    (run env [ InitialBackground; Command (play_command "a.mp4" 5) 1;
               FadeFinished; FadeFinished; FrameReady (Frame 0 640 480) ]
       started).


(** A producer that decodes two pictures, is paused once, and reaches the
    end of the file. *)
Definition short_script : list VideoThread.tick :=
  [ VideoThread.Tick true 0 (VideoThread.Decoded (Some (picture 0)) 0.5) 0.2;
    VideoThread.Tick true 0.3 VideoThread.Paused 0.2;
    VideoThread.Tick true 0.4 (VideoThread.Decoded (Some (picture 1)) 0.6) 0.7;
    VideoThread.Tick true 0.5 VideoThread.Eof 0.7;
    VideoThread.Tick true 0.6 (VideoThread.Decoded (Some (picture 2)) 0.7) 0.7 ].

End Examples.

(** * Properties *)

From Stdlib Require Import FloatAxioms.

(** ** Scaling *)

Section ScalingFacts.

Import Scaling.

Lemma truediv_positive (a b : Z) :
  0 < b → Py.truediv a b = Some (PrimFloat.div (Py.of_int a) (Py.of_int b)).
Proof.
  intros Hb. unfold Py.truediv.
  destruct (Z.eqb_spec b 0) as [->|_]; [lia | reflexivity].
Qed.

(** On a source with positive sides the code computes exactly the
    truncating [fit]: no exception path is taken by the divisions. *)
Lemma image_geometry_fit (is_background : bool) (w h W H : Z) :
  0 < w → 0 < h →
  image_geometry is_background w h W H
  = fit_truncated (mode_of is_background) w h W H.
Proof.
  intros Hw Hh. unfold image_geometry, fit_truncated, fit_with, fit_scale, scaled.
  rewrite !truediv_positive by assumption. cbn [mbind option_bind].
  destruct is_background; cbn [mode_of andb];
    repeat (destruct (Py.int _) as [?|]; cbn [mbind option_bind];
            try reflexivity).
  unfold centered_crop, Py.floordiv. destruct (_ || _); reflexivity.
Qed.

Lemma frame_geometry_fit (w h W H : Z) :
  0 < w → 0 < h →
  frame_geometry w h W H = new_size <$> fit_truncated Fit w h W H.
Proof.
  intros Hw Hh. unfold frame_geometry, fit_truncated, fit_with, fit_scale, scaled.
  rewrite !truediv_positive by assumption. cbn [mbind option_bind].
  repeat (destruct (Py.int _) as [?|];
          cbn [mbind option_bind fmap option_fmap option_map]; try reflexivity).
Qed.

(** The crop rectangle has exactly the screen's size and sits in the
    middle: the margins on either side differ by at most one pixel. *)
Lemma centered_crop_exact (nw nh W H : Z) :
  let b := centered_crop nw nh W H in
  box_width b = W ∧ box_height b = H
  ∧ 0 ≤ (nw - right b) - left b ≤ 1
  ∧ 0 ≤ (nh - bottom b) - top b ≤ 1.
Proof.
  unfold centered_crop, box_width, box_height; cbn [left right top bottom].
  pose proof (Z.div_mod (nw - W) 2 ltac:(lia)) as Hx.
  pose proof (Z.mod_pos_bound (nw - W) 2 ltac:(lia)) as Hxb.
  pose proof (Z.div_mod (nh - H) 2 ltac:(lia)) as Hy.
  pose proof (Z.mod_pos_bound (nh - H) 2 ltac:(lia)) as Hyb.
  repeat split; lia.
Qed.

Lemma fit_crop_cases (m : mode) (w h W H : Z) (g : geometry) :
  fit_truncated m w h W H = Some g →
  match m, crop_box g with
  | Fit, c => c = None
  | Fill, Some b =>
      (W < (new_size g).1 ∨ H < (new_size g).2)
      ∧ b = centered_crop (new_size g).1 (new_size g).2 W H
  | Fill, None => (new_size g).1 ≤ W ∧ (new_size g).2 ≤ H
  end.
Proof.
  unfold fit_truncated, fit_with.
  destruct (Py.int _) as [nw|]; [|discriminate].
  destruct (Py.int _) as [nh|]; [|discriminate].
  intros [= <-]. destruct m; cbn [crop_box new_size fst snd]; [reflexivity|].
  destruct (Z.ltb_spec W nw), (Z.ltb_spec H nh); cbn [orb crop_box];
    (split; [lia || (left; lia) || (right; lia) | reflexivity || lia]).
Qed.

(** C4 (amended): for a source (w,h) and a screen (W,H) with positive
    sides, [display_image] computes [fit] with scale = min(W/w, H/h) for
    a foreground image (Fit, never a crop) and max(W/w, H/h) for the
    background (Fill), where each scaled length is truncated toward zero
    by [int()], not rounded; in Fill mode a scaled size beyond the screen
    on either axis yields the centered crop rectangle of exactly (W,H),
    and otherwise none; [update_frame] computes the same Fit size for a
    video frame; and fit((1920,1080),(1280,720),Fit) is (1280,720). *)
Theorem scaling_truncates (is_background : bool) (w h W H : Z) :
  0 < w → 0 < h → 0 < W → 0 < H →
  image_geometry is_background w h W H
    = fit_truncated (mode_of is_background) w h W H
  ∧ frame_geometry w h W H = new_size <$> image_geometry false w h W H
  ∧ (∀ g, image_geometry false w h W H = Some g → crop_box g = None)
  ∧ (∀ g, image_geometry true w h W H = Some g →
       match crop_box g with
       | Some b =>
           (W < (new_size g).1 ∨ H < (new_size g).2)
           ∧ box_width b = W ∧ box_height b = H
           ∧ 0 ≤ ((new_size g).1 - right b) - left b ≤ 1
           ∧ 0 ≤ ((new_size g).2 - bottom b) - top b ≤ 1
       | None => (new_size g).1 ≤ W ∧ (new_size g).2 ≤ H
       end)
  ∧ image_geometry false 1920 1080 1280 720 = Some (Geometry (1280, 720) None).
Proof.
  intros Hw Hh HW HH. split; [|split; [|split; [|split]]].
  - apply image_geometry_fit; assumption.
  - rewrite frame_geometry_fit, (image_geometry_fit false) by assumption.
    reflexivity.
  - intros g Hg. rewrite image_geometry_fit in Hg by assumption.
    exact (fit_crop_cases Fit _ _ _ _ g Hg).
  - intros g Hg. rewrite image_geometry_fit in Hg by assumption.
    pose proof (fit_crop_cases Fill _ _ _ _ g Hg) as Hc. cbn [mode_of] in Hc.
    destruct (crop_box g) as [b|]; [|exact Hc].
    destruct Hc as [Hbig ->]. split; [exact Hbig|].
    apply centered_crop_exact.
  - vm_compute. reflexivity.
Qed.

Lemma scaling_truncates_witness :
  image_geometry true 800 600 1280 720
    = fit_truncated (mode_of true) 800 600 1280 720
  ∧ frame_geometry 800 600 1280 720
    = new_size <$> image_geometry false 800 600 1280 720
  ∧ (∀ g, image_geometry false 800 600 1280 720 = Some g → crop_box g = None)
  ∧ (∀ g, image_geometry true 800 600 1280 720 = Some g →
       match crop_box g with
       | Some b =>
           (1280 < (new_size g).1 ∨ 720 < (new_size g).2)
           ∧ box_width b = 1280 ∧ box_height b = 720
           ∧ 0 ≤ ((new_size g).1 - right b) - left b ≤ 1
           ∧ 0 ≤ ((new_size g).2 - bottom b) - top b ≤ 1
       | None => (new_size g).1 ≤ 1280 ∧ (new_size g).2 ≤ 720
       end)
  ∧ image_geometry false 1920 1080 1280 720 = Some (Geometry (1280, 720) None).
Proof. apply (scaling_truncates true 800 600 1280 720); lia. Defined.

(** C4 (as stated) fails: a 1000x700 image on a 1280x720 screen is scaled
    to 1028x719 by the code, while rounding the same products gives
    1029x720. *)
Lemma scaling_does_not_round :
  image_geometry false 1000 700 1280 720 = Some (Geometry (1028, 719) None)
  ∧ fit_rounded Fit 1000 700 1280 720 = Some (Geometry (1029, 720) None)
  ∧ image_geometry false 1000 700 1280 720 ≠ fit_rounded Fit 1000 700 1280 720.
Proof.
  assert (H1 : image_geometry false 1000 700 1280 720
               = Some (Geometry (1028, 719) None)) by (vm_compute; reflexivity).
  assert (H2 : fit_rounded Fit 1000 700 1280 720
               = Some (Geometry (1029, 720) None)) by (vm_compute; reflexivity).
  split; [exact H1 | split; [exact H2 |]].
  rewrite H1, H2. intros [=].
Qed.

(** The background of the examples: 800x600 on 1280x720 is scaled to
    1280x960 and cropped to rows 120..840. *)
Example fill_800x600 :
  image_geometry true 800 600 1280 720
  = Some (Geometry (1280, 960) (Some (Box 0 120 1280 840))).
Proof. vm_compute. reflexivity. Qed.

End ScalingFacts.

(** ** The frame producer *)

Section VideoThreadFacts.

Import VideoThread.

(** A delay below -50 ms is not above 1 ms. *)
Lemma behind_not_ahead (d : float) :
  PrimFloat.ltb d (-0.05) = true → PrimFloat.ltb 0.001 d = false.
Proof.
  rewrite (ltb_spec d), (ltb_spec _ d).
  set (a := Prim2SF (-0.05)). set (b := Prim2SF 0.001).
  vm_compute in a. vm_compute in b. subst a b.
  unfold SFltb, SFcompare.
  destruct (Prim2SF d) as [s|s| |s m e]; try destruct s;
    first [ reflexivity | discriminate ].
Qed.

Lemma leaves_false (duration : Z) (t : tick) :
  leaves duration t = false →
  running t = true
  ∧ (0 <? duration) && Py.float_ge_int (elapsed t) duration = false
  ∧ got t ≠ Eof ∧ got t ≠ Raised ∧ (∀ img pts, got t ≠ PtsRaised img pts).
Proof.
  unfold leaves. intros H.
  apply orb_false_elim in H as [H Hgot]. apply orb_false_elim in H as [Hrun Hdur].
  apply negb_false_iff in Hrun.
  repeat split; try assumption; intros; intros Heq; rewrite Heq in Hgot;
    discriminate.
Qed.

(** A pass that decodes and converts a picture emits it once and then
    does what [av_sync] says. *)
Lemma iteration_decoded (duration : Z) (t : tick) (l : locals)
    (img : image) (pts : float) :
  leaves duration t = false →
  got t = Decoded (Some img) pts → img_converts img = true →
  output (iteration duration t l)
  = Emit (to_frame img) ::
    match av_sync pts (audio_pts t) with
    | SleepFor s => [Sleep s]
    | Skip | Proceed => []
    end.
Proof.
  intros Hl Hgot Hconv. apply leaves_false in Hl as (Hrun & Hdur & _).
  unfold iteration. rewrite Hrun, Hdur, Hgot, Hconv. cbn [negb].
  destruct (av_sync pts (audio_pts t)); reflexivity.
Qed.

(** C3 (amended): for a pass that emits a frame, with
    delay = video_pts - audio_pts computed when both timestamps are
    positive: if delay > 1 ms the producer sleeps min(delay, 100 ms)
    before the next poll; if delay < -50 ms it polls again at once; if
    -50 ms <= delay <= 1 ms it also goes on without any sleep; only when
    a timestamp is not positive (no audio reference) does it sleep the
    fixed 1 ms. *)
Theorem sync_policy (duration : Z) (t : tick) (l : locals)
    (img : image) (pts : float) :
  leaves duration t = false →
  got t = Decoded (Some img) pts → img_converts img = true →
  let delay := PrimFloat.sub pts (audio_pts t) in
  let both := PrimFloat.ltb 0 (audio_pts t) && PrimFloat.ltb 0 pts in
  let out := output (iteration duration t l) in
  (both = true → PrimFloat.ltb 0.001 delay = true →
     out = [Emit (to_frame img); Sleep (Py.min delay 0.1)])
  ∧ (both = true → PrimFloat.ltb delay (-0.05) = true →
     out = [Emit (to_frame img)])
  ∧ (both = true → PrimFloat.ltb 0.001 delay = false →
     PrimFloat.ltb delay (-0.05) = false →
     out = [Emit (to_frame img)])
  ∧ (both = false → out = [Emit (to_frame img); Sleep 0.001]).
Proof.
  intros Hl Hgot Hconv delay both out. subst out.
  rewrite (iteration_decoded _ _ _ _ _ Hl Hgot Hconv).
  unfold av_sync. fold both. fold delay.
  split; [|split; [|split]].
  - intros -> ->. reflexivity.
  - intros -> Hb. rewrite (behind_not_ahead _ Hb), Hb. reflexivity.
  - intros -> -> ->. reflexivity.
  - intros ->. reflexivity.
Qed.

Lemma sync_policy_witness :
  output (iteration 0 (Examples.lagging_tick 2 2) start_locals)
  = [Emit (to_frame (Examples.picture 2))].
Proof.
  exact (proj1 (proj2 (sync_policy 0 (Examples.lagging_tick 2 2) start_locals
                         (Examples.picture 2) 2%float eq_refl eq_refl eq_refl))
           eq_refl eq_refl).
Defined.

(** C3 (as stated) fails: with both timestamps at 1 s the delay is 0,
    which is neither above 1 ms nor below -50 ms; the specified policy
    sleeps 1 ms there, the code polls again without sleeping. *)
Lemma in_sync_frame_is_not_followed_by_a_sleep :
  let t := Tick true 0 (Decoded (Some (Examples.picture 0)) 1) 1 in
  av_sync_spec 1 1 = SleepFor 0.001
  ∧ av_sync 1 1 = Proceed
  ∧ sleeps (output (iteration 0 t start_locals)) = [].
Proof. vm_compute. repeat split. Qed.

(** *** Emission order *)

Lemma emitted_app (a b : list action) : emitted (a ++ b) = emitted a ++ emitted b.
Proof.
  induction a as [|x a IH]; [reflexivity|].
  destruct x; cbn [emitted app]; rewrite IH; reflexivity.
Qed.

(** What a pass emits is the frame it decoded and converted, if any, and
    nothing when the loop is left. *)
Lemma emitted_iteration (duration : Z) (t : tick) (l : locals) :
  emitted (output (iteration duration t l))
  = if leaves duration t then []
    else match converted t with Some f => [f] | None => [] end.
Proof.
  unfold iteration, leaves, converted.
  destruct (running t); cbn [negb orb]; [|reflexivity].
  destruct ((0 <? duration) && Py.float_ge_int (elapsed t) duration);
    cbn [orb]; [reflexivity|].
  destruct (got t) as [| | |[img|] pts| |img' pts']; try reflexivity.
  destruct (img_converts img); [|reflexivity].
  destruct (av_sync pts (audio_pts t)); reflexivity.
Qed.

Lemma iteration_break_iff (duration : Z) (t : tick) (l : locals) :
  leaves duration t
  = match iteration duration t l with Break _ _ => true | Continue _ _ => false end.
Proof.
  unfold iteration, leaves.
  destruct (running t); cbn [negb orb]; [|reflexivity].
  destruct ((0 <? duration) && Py.float_ge_int (elapsed t) duration);
    cbn [orb]; [reflexivity|].
  destruct (got t) as [| | |[img|] pts| |img' pts']; try reflexivity.
  destruct (img_converts img); [|reflexivity].
  destruct (av_sync pts (audio_pts t)); reflexivity.
Qed.

Lemma emitted_run_from (duration : Z) (script : list tick) (l : locals) :
  emitted (run_from duration script l) = decoded_frames duration script.
Proof.
  revert l. induction script as [|t rest IH]; intros l; [reflexivity|].
  cbn [run_from decoded_frames].
  pose proof (emitted_iteration duration t l) as He.
  pose proof (iteration_break_iff duration t l) as Hb.
  destruct (iteration duration t l) as [out l'|out l']; cbn [output] in He;
    rewrite emitted_app, He, Hb.
  - rewrite IH. destruct (converted t); reflexivity.
  - reflexivity.
Qed.

(** Polling on never takes back what was done: the output of a longer
    script extends the output of each of its prefixes. *)
Lemma run_from_extends (duration : Z) (script more : list tick) (l : locals) :
  ∃ rest, run_from duration (script ++ more) l
          = run_from duration script l ++ rest.
Proof.
  revert l. induction script as [|t script IH]; intros l.
  - exists (run_from duration more l). reflexivity.
  - cbn [app run_from]. destruct (iteration duration t l) as [out l'|out l'].
    + destruct (IH l') as [rest ->]. exists rest. rewrite app_assoc. reflexivity.
    + exists []. rewrite app_nil_r. reflexivity.
Qed.

(** C8 (amended): the producer emits every decoded and converted frame
    exactly once, in decode order, and never takes an emission back; a
    frame whose delay, computed when both timestamps are positive, is
    below -50 ms is emitted and followed by no sleep; a frame with a
    timestamp that is not positive is followed by the 1 ms sleep however
    far it lags. For the timestamps [0,1,2,3] with the audio clock at 3.1
    frames 0-3 are each emitted once, in order; frame 0 is followed by the
    1 ms sleep and frames 1-3 follow one another with no sleep between. *)
Theorem frames_emitted_once_in_order (duration : Z) (script : list tick) :
  emitted (run duration script) = decoded_frames duration script
  ∧ (∀ more, ∃ rest, run duration (script ++ more) = run duration script ++ rest)
  ∧ (∀ t l img pts,
       leaves duration t = false →
       got t = Decoded (Some img) pts → img_converts img = true →
       PrimFloat.ltb 0 (audio_pts t) && PrimFloat.ltb 0 pts = true →
       lags pts (audio_pts t) = true →
       output (iteration duration t l) = [Emit (to_frame img)])
  ∧ (∀ t l img pts,
       leaves duration t = false →
       got t = Decoded (Some img) pts → img_converts img = true →
       PrimFloat.ltb 0 (audio_pts t) && PrimFloat.ltb 0 pts = false →
       output (iteration duration t l) = [Emit (to_frame img); Sleep 0.001])
  ∧ run 0 Examples.lagging_script
    = [ Emit (Frame 0 640 480); Sleep 0.001; Emit (Frame 1 640 480);
        Emit (Frame 2 640 480); Emit (Frame 3 640 480) ].
Proof.
  split; [|split; [|split; [|split]]].
  - apply emitted_run_from.
  - intros more. apply run_from_extends.
  - intros t l img pts Hl Hgot Hconv Hboth Hlag.
    rewrite (iteration_decoded _ _ _ _ _ Hl Hgot Hconv).
    unfold av_sync. unfold lags in Hlag.
    rewrite Hboth, (behind_not_ahead _ Hlag), Hlag. reflexivity.
  - intros t l img pts Hl Hgot Hconv Hboth.
    rewrite (iteration_decoded _ _ _ _ _ Hl Hgot Hconv).
    unfold av_sync. rewrite Hboth. reflexivity.
  - vm_compute. reflexivity.
Qed.

Lemma frames_emitted_once_in_order_witness :
  emitted (run 0 Examples.lagging_script)
  = [Frame 0 640 480; Frame 1 640 480; Frame 2 640 480; Frame 3 640 480]
  ∧ output (iteration 0 (Examples.lagging_tick 3 3) start_locals)
    = [Emit (Frame 3 640 480)]
  ∧ output (iteration 0 (Examples.lagging_tick 0 0) start_locals)
    = [Emit (Frame 0 640 480); Sleep 0.001].
Proof.
  pose proof (frames_emitted_once_in_order 0 Examples.lagging_script)
    as (Hall & _ & Hlag & Hzero & _).
  split; [rewrite Hall; reflexivity | split].
  - exact (Hlag (Examples.lagging_tick 3 3) start_locals (Examples.picture 3) 3%float
             eq_refl eq_refl eq_refl eq_refl eq_refl).
  - exact (Hzero (Examples.lagging_tick 0 0) start_locals (Examples.picture 0) 0%float
             eq_refl eq_refl eq_refl eq_refl).
Defined.

(** C8 (as stated) fails: in the example every one of the four frames
    lags the audio clock by more than 50 ms, yet a sleep stands between
    frame 0 and frame 1. *)
Lemma lagging_frame_zero_is_followed_by_a_sleep :
  Forall (λ t, match got t with
               | Decoded _ pts => lags pts (audio_pts t) = true
               | _ => False
               end) Examples.lagging_script
  ∧ run 0 (take 2 Examples.lagging_script)
    = [Emit (Frame 0 640 480); Sleep 0.001; Emit (Frame 1 640 480)]
  ∧ sleeps (run 0 Examples.lagging_script) ≠ [].
Proof.
  split; [|split].
  - repeat constructor.
  - vm_compute. reflexivity.
  - vm_compute. intros [=].
Qed.

End VideoThreadFacts.

(** ** The command channel *)

Section ChannelFacts.

Import Player IPCServer.

Context (C : Codec) (E : Env).

(** Text that parses is not empty. *)
Lemma parsed_text_nonempty (data : string) (v : parsed) :
  json_loads C data = Returns v → data ≠ EmptyString.
Proof.
  intros Hv ->. rewrite (json_loads_empty C) in Hv. discriminate.
Qed.

Lemma serve_object (received : list Byte.byte) (d : gmap string pyval) :
  well_formed C received d →
  serve C received = [Log (MsgReceived (PObject d)); Emit d; Send "OK"; Close].
Proof.
  intros (data & Hdec & Hjson). unfold serve. rewrite Hdec.
  destruct (decide (data = EmptyString)) as [Hempty|_].
  - exfalso. exact (parsed_text_nonempty _ _ Hjson Hempty).
  - rewrite Hjson. reflexivity.
Qed.

Lemma serve_invalid_json (received : list Byte.byte) (data : string) :
  utf8_decode C received = Some data → data ≠ EmptyString →
  json_loads C data = JSONDecodeError →
  serve C received = [Log MsgInvalidJSON; Send "ERROR"; Close].
Proof.
  intros Hdec Hne Hjson. unfold serve. rewrite Hdec.
  destruct (decide (data = EmptyString)) as [Hempty|_]; [contradiction|].
  rewrite Hjson. reflexivity.
Qed.

(** C5 (amended): for every payload that is non-empty text: if
    [json.loads] turns it into an object the server dispatches it and then
    replies with the single token OK and closes; if [json.loads] raises
    json.JSONDecodeError on it the server replies ERROR, closes the
    connection, dispatches nothing, and the controller state is left as
    it was. *)
Theorem serve_replies (received : list Byte.byte) (data : string)
    (opacity : float) (s : state) :
  utf8_decode C received = Some data → data ≠ EmptyString →
  (∀ d, json_loads C data = Returns (PObject d) →
        serve C received
        = [Log (MsgReceived (PObject d)); Emit d; Send "OK"; Close]
        ∧ replies (serve C received) = ["OK"%string]
        ∧ dispatched (serve C received) = [d]
        ∧ closes (serve C received) = true)
  ∧ (json_loads C data = JSONDecodeError →
        serve C received = [Log MsgInvalidJSON; Send "ERROR"; Close]
        ∧ replies (serve C received) = ["ERROR"%string]
        ∧ closes (serve C received) = true
        ∧ dispatched (serve C received) = []
        ∧ (receive E C opacity received s).2 = Some s).
Proof.
  intros Hdec Hne. split.
  - intros d Hjson.
    assert (Hs := serve_object received d (ex_intro _ data (conj Hdec Hjson))).
    rewrite Hs. repeat split.
  - intros Hjson. unfold receive.
    rewrite (serve_invalid_json received data Hdec Hne Hjson). repeat split.
Qed.

(** C10: a payload that parses as an object whose [command] is none of
    PLAY, STOP and EXIT, or is PLAY with no [file], is answered with OK,
    and handling it leaves the controller state as it was. *)
Theorem unknown_command_ignored (received : list Byte.byte)
    (d : gmap string pyval) (opacity : float) (s : state) :
  well_formed C received d →
  (d !! "command"%string ≠ Some (PStr "PLAY")
   ∧ d !! "command"%string ≠ Some (PStr "STOP")
   ∧ d !! "command"%string ≠ Some (PStr "EXIT"))
  ∨ (d !! "command"%string = Some (PStr "PLAY") ∧ d !! "file"%string = None) →
  replies (serve C received) = ["OK"%string]
  ∧ handle_ipc_command E opacity d s = Some s
  ∧ (receive E C opacity received s).2 = Some s.
Proof.
  intros Hwf Hcmd.
  assert (Hh : handle_ipc_command E opacity d s = Some s).
  { unfold handle_ipc_command.
    destruct Hcmd as [(Hplay & Hstop & Hexit) | (Hplay & Hfile)].
    - repeat (case_decide; [contradiction|]). reflexivity.
    - rewrite Hfile. case_decide; [reflexivity | contradiction]. }
  unfold receive. rewrite (serve_object received d Hwf).
  cbn [replies dispatched map run step snd]. rewrite Hh. repeat split.
Qed.

End ChannelFacts.

Lemma serve_replies_witness :
  IPCServer.replies (IPCServer.serve Examples.codec (Examples.bytes_of "stop now"))
  = ["ERROR"%string]
  ∧ (Player.receive Examples.env Examples.codec 1
       (Examples.bytes_of "stop now") (Player.init_state (Some "bg.png"%string))).2
    = Some (Player.init_state (Some "bg.png"%string))
  ∧ IPCServer.replies
      (IPCServer.serve Examples.codec (Examples.bytes_of Examples.stop_text))
    = ["OK"%string].
Proof.
  pose proof (serve_replies Examples.codec Examples.env
                (Examples.bytes_of "stop now") "stop now" 1
                (Player.init_state (Some "bg.png"%string)) eq_refl
                ltac:(discriminate)) as [_ Herr].
  pose proof (serve_replies Examples.codec Examples.env
                (Examples.bytes_of Examples.stop_text) Examples.stop_text 1
                (Player.init_state (Some "bg.png"%string)) eq_refl
                ltac:(discriminate)) as [Hok _].
  destruct (Herr eq_refl) as (_ & Hr & _ & _ & Hs).
  destruct (Hok Examples.stop_command eq_refl) as (_ & Hr' & _).
  split; [exact Hr | split; [exact Hs | exact Hr']].
Defined.

(** C5 (as stated) fails: a connection on which nothing parseable
    arrives, the empty payload, gets no ERROR: the server writes no reply
    at all and only closes. Nor does a payload of 1100 nested brackets,
    on which [json.loads] raises a RecursionError: the server neither
    replies nor closes. *)
Lemma empty_payload_gets_no_reply :
  IPCServer.unparseable Examples.codec []
  ∧ IPCServer.serve Examples.codec [] = [IPCServer.Close]
  ∧ IPCServer.replies (IPCServer.serve Examples.codec []) ≠ ["ERROR"%string]
  ∧ IPCServer.unparseable Examples.codec (Examples.bytes_of Examples.deep_text)
  ∧ IPCServer.serve Examples.codec (Examples.bytes_of Examples.deep_text)
    = [IPCServer.Log IPCServer.MsgIPCError].
Proof.
  split; [intros v; discriminate|].
  split; [reflexivity|]. split; [intros [=]|].
  assert (Hs : IPCServer.serve Examples.codec (Examples.bytes_of Examples.deep_text)
               = [IPCServer.Log IPCServer.MsgIPCError])
    by (vm_compute; reflexivity).
  split; [|exact Hs].
  assert (Hd : IPCServer.utf8_decode Examples.codec
                 (Examples.bytes_of Examples.deep_text)
               = Some Examples.deep_text) by (vm_compute; reflexivity).
  unfold IPCServer.unparseable. rewrite Hd.
  assert (Hj : IPCServer.json_loads Examples.codec Examples.deep_text
               = IPCServer.OtherError) by (vm_compute; reflexivity).
  rewrite Hj. intros v. discriminate.
Qed.

Lemma unknown_command_ignored_witness :
  IPCServer.replies
    (IPCServer.serve Examples.codec (Examples.bytes_of Examples.pause_text))
  = ["OK"%string]
  ∧ Player.handle_ipc_command Examples.env 1 Examples.pause_command
      Examples.started
    = Some Examples.started
  ∧ (Player.receive Examples.env Examples.codec 1
       (Examples.bytes_of Examples.pause_text) Examples.started).2
    = Some Examples.started.
Proof.
  apply (unknown_command_ignored Examples.codec Examples.env
           (Examples.bytes_of Examples.pause_text) Examples.pause_command 1
           Examples.started).
  - exists Examples.pause_text. split; reflexivity.
  - left. repeat split; vm_compute; discriminate.
Defined.

(** ** The playback controller *)

Section PlayerFacts.

Import Player.

Context (E : Env).

(** *** Traces *)

Lemma fade_outs_app (a b : list effect) :
  fade_outs (a ++ b) = (fade_outs a + fade_outs b)%nat.
Proof.
  induction a as [|x a IH]; [reflexivity|].
  destruct x; cbn [fade_outs app]; rewrite IH; lia.
Qed.


Lemma emit_same_state (es : list effect) (s : state) : same_state s (emit es s).
Proof. repeat split. Qed.

Lemma emit_emit (a b : list effect) (s : state) :
  emit b (emit a s) = emit (a ++ b) s.
Proof. unfold emit; cbn. rewrite app_assoc. reflexivity. Qed.

(** *** What each slot leaves alone *)

Lemma stop_video_thread_frame (s : state) :
  let s' := stop_video_thread s in
  trace s' = trace s ∧ video_thread s' = video_thread s
  ∧ is_transitioning s' = is_transitioning s
  ∧ pending_command s' = pending_command s
  ∧ current_file s' = current_file s
  ∧ background_image s' = background_image s
  ∧ label_pixmap s' = label_pixmap s
  ∧ media_timer s' = media_timer s
  ∧ length (threads s') = length (threads s).
Proof.
  unfold stop_video_thread.
  repeat case_match; cbn; repeat split; try congruence.
  apply length_insert.
Qed.

(** The guard looks at the thread table and the current thread only. *)
Lemma stop_video_thread_threads (s1 s2 : state) :
  video_thread s1 = video_thread s2 → threads s1 = threads s2 →
  threads (stop_video_thread s1) = threads (stop_video_thread s2).
Proof.
  intros Hv Ht. unfold stop_video_thread. rewrite Hv, Ht.
  repeat case_match; cbn; congruence.
Qed.

Lemma display_image_frame (path : option string) (duration : Z)
    (is_background : bool) (s : state) :
  let s' := display_image E path duration is_background s in
  threads s' = threads s ∧ video_thread s' = video_thread s
  ∧ is_transitioning s' = is_transitioning s
  ∧ pending_command s' = pending_command s
  ∧ current_file s' = current_file s
  ∧ background_image s' = background_image s.
Proof.
  unfold display_image. repeat case_match; cbn; repeat split; congruence.
Qed.

Lemma update_frame_frame (f : frame) (s : state) :
  let s' := update_frame E f s in
  threads s' = threads s ∧ video_thread s' = video_thread s
  ∧ is_transitioning s' = is_transitioning s
  ∧ pending_command s' = pending_command s
  ∧ current_file s' = current_file s
  ∧ background_image s' = background_image s
  ∧ media_timer s' = media_timer s.
Proof.
  unfold update_frame.
  repeat case_match; simplify_eq; cbn; repeat split; congruence.
Qed.

Lemma display_video_frame (path : string) (duration : Z) (s : state) :
  let s' := display_video path duration s in
  is_transitioning s' = is_transitioning s
  ∧ pending_command s' = pending_command s
  ∧ current_file s' = current_file s
  ∧ background_image s' = background_image s
  ∧ label_pixmap s' = label_pixmap s
  ∧ media_timer s' = media_timer s
  ∧ trace s' = trace s ++ [ThreadStart (length (threads s)) path].
Proof.
  pose proof (stop_video_thread_frame s) as (Ht & _ & Htr & Hp & Hc & Hb & Hl & Hm & Hlen).
  unfold display_video. cbn. rewrite Ht, Htr, Hp, Hc, Hb, Hl, Hm, Hlen.
  repeat split.
Qed.

Lemma display_image_fades (path : option string) (duration : Z)
    (is_background : bool) (s : state) :
  fade_outs (trace (display_image E path duration is_background s))
  = fade_outs (trace s).
Proof.
  unfold display_image.
  repeat case_match; cbn; rewrite ?fade_outs_app; cbn; lia.
Qed.

Lemma update_frame_fades (f : frame) (s : state) :
  fade_outs (trace (update_frame E f s)) = fade_outs (trace s).
Proof.
  unfold update_frame.
  repeat case_match; simplify_eq; cbn; rewrite ?fade_outs_app; cbn; lia.
Qed.

Lemma display_video_fades (path : string) (duration : Z) (s : state) :
  fade_outs (trace (display_video path duration s)) = fade_outs (trace s).
Proof.
  pose proof (display_video_frame path duration s) as (_ & _ & _ & _ & _ & _ & ->).
  rewrite fade_outs_app. cbn. lia.
Qed.



Lemma update_frame_displays (f : frame) (s : state) :
  ∃ new, trace (update_frame E f s) = trace s ++ new ∧ displayed_files new = [].
Proof.
  unfold update_frame.
  repeat case_match; simplify_eq; cbn; rewrite <- ?app_assoc; cbn [app];
    eexists; (split; [reflexivity|]); reflexivity.
Qed.

(** *** C6: the fade-out guard *)

Lemma fade_out_in_flight (s : state) :
  is_transitioning s = true → fade_out s = s.
Proof. intros H. unfold fade_out. rewrite H. reflexivity. Qed.

Lemma fade_out_fresh (s : state) :
  is_transitioning s = false →
  let s' := fade_out s in
  trace s' = trace s ++ [FadeStart 1 0]
  ∧ is_transitioning s' = true
  ∧ pending_command s' = pending_command s
  ∧ current_file s' = current_file s
  ∧ background_image s' = background_image s
  ∧ label_pixmap s' = label_pixmap s
  ∧ video_thread s' = video_thread s
  ∧ threads s' = threads (stop_video_thread s).
Proof.
  intros H. unfold fade_out. rewrite H.
  pose proof (stop_video_thread_frame (set_is_transitioning true s))
    as (Ht & Hv & Htr & Hp & Hc & Hb & Hl & _ & _).
  cbn. rewrite Ht, Hv, Htr, Hp, Hc, Hb, Hl. repeat split.
  apply stop_video_thread_threads; reflexivity.
Qed.

Lemma fade_out_transitions (s : state) : is_transitioning (fade_out s) = true.
Proof.
  destruct (is_transitioning s) eqn:H.
  - rewrite fade_out_in_flight; assumption.
  - apply (fade_out_fresh s H).
Qed.

Lemma fade_out_fades (s : state) :
  fade_outs (trace (fade_out s))
  = (fade_outs (trace s) + (if is_transitioning s then 0 else 1))%nat.
Proof.
  destruct (is_transitioning s) eqn:H.
  - rewrite fade_out_in_flight by assumption. lia.
  - destruct (fade_out_fresh s H) as (-> & _). rewrite fade_outs_app. reflexivity.
Qed.

Lemma fade_out_background (s : state) :
  background_image (fade_out s) = background_image s.
Proof.
  destruct (is_transitioning s) eqn:H.
  - rewrite fade_out_in_flight; [reflexivity | assumption].
  - apply (fade_out_fresh s H).
Qed.

Lemma stop_playback_fades (s : state) :
  let s' := stop_playback E true s in
  fade_outs (trace s')
  = (fade_outs (trace s)
     + (if background_available E s && negb (is_transitioning s) then 1 else 0))%nat
  ∧ is_transitioning s' = is_transitioning s || background_available E s
  ∧ background_image s' = background_image s.
Proof.
  unfold stop_playback. cbn [andb].
  set (s2 := set_media_timer None (emit [Log MsgStopping] s)).
  pose proof (stop_video_thread_frame s2) as (Ht & _ & Htr & _ & _ & Hb & _).
  assert (Hav : background_available E (stop_video_thread s2)
                = background_available E s).
  { unfold background_available. rewrite Hb. reflexivity. }
  assert (Hfo : fade_outs (trace (stop_video_thread s2)) = fade_outs (trace s)).
  { rewrite Ht. cbn. rewrite fade_outs_app. cbn. lia. }
  rewrite Hav. destruct (background_available E s); cbn [andb orb].
  - rewrite fade_out_fades, fade_out_transitions, fade_out_background.
    cbn. rewrite Hfo, Htr, Hb. cbn.
    destruct (is_transitioning s); repeat split; rewrite ?orb_true_r; reflexivity.
  - rewrite Hfo, Htr, Hb, orb_false_r. repeat split. lia.
Qed.

Lemma play_media_fades (opacity : float) (file : string) (d : Z) (s : state) :
  let s' := play_media E opacity file d s in
  (fade_outs (trace s') + (if is_transitioning s then 1 else 0)
   ≤ fade_outs (trace s) + (if is_transitioning s' then 1 else 0))%nat.
Proof.
  unfold play_media.
  set (s3 := set_current_file (Some file)
               (set_media_timer None (emit [Log (MsgPlaying file d)] s))).
  assert (H3 : fade_outs (trace s3) = fade_outs (trace s)
               ∧ is_transitioning s3 = is_transitioning s).
  { split; [|reflexivity]. cbn. rewrite fade_outs_app. cbn. lia. }
  destruct H3 as [Hf3 Ht3].
  destruct (path_exists E file); cbn [negb].
  - destruct (PrimFloat.ltb 0 opacity).
    + rewrite fade_out_fades, fade_out_transitions. cbn -[s3].
      rewrite Hf3, Ht3. destruct (is_transitioning s); lia.
    + unfold fade_in.
      destruct (is_image_ext (suffix_lower E file));
        cbn [trace is_transitioning emit].
      * rewrite fade_outs_app, display_image_fades.
        pose proof (display_image_frame (Some file) d false s3) as (_ & _ & -> & _).
        rewrite Hf3, Ht3. cbn. lia.
      * rewrite fade_outs_app, display_video_fades.
        pose proof (display_video_frame file d s3) as (-> & _).
        rewrite Hf3, Ht3. cbn. lia.
  - cbn. rewrite fade_outs_app. cbn. lia.
Qed.

Lemma on_fade_finished_fades (s : state) :
  fade_outs (trace (on_fade_finished E s)) = fade_outs (trace s)
  ∧ is_transitioning (on_fade_finished E s) = false.
Proof.
  unfold on_fade_finished, fade_in. split; [|reflexivity].
  destruct (pending_command s) as [[file d is_image|]|];
    cbn [trace emit set_is_transitioning]; [| |reflexivity].
  - rewrite fade_outs_app.
    destruct is_image; rewrite ?display_image_fades, ?display_video_fades; cbn; lia.
  - rewrite fade_outs_app, display_image_fades. cbn. lia.
Qed.

(** A command is ignored, or it plays a file, stops, or closes. *)
Lemma handle_ipc_command_cases (opacity : float) (c : gmap string pyval)
    (s s' : state) :
  handle_ipc_command E opacity c s = Some s' →
  s' = s
  ∨ (∃ file d, s' = play_media E opacity file d s)
  ∨ s' = stop_playback E true s
  ∨ s' = close s.
Proof.
  unfold handle_ipc_command.
  repeat case_match; intros [= <-]; eauto.
Qed.

(** One event starts at most one fade-out, and only when none is in
    flight; a fade that is in flight ends with [FadeFinished] alone. *)
Lemma step_fades (s s' : state) (ev : event) :
  step E s ev = Some s' →
  (fade_outs (trace s') + (if is_transitioning s then 1 else 0)
   ≤ fade_outs (trace s) + (if is_transitioning s' then 1 else 0)
     + fades_finished [ev])%nat.
Proof.
  destruct ev as [c op| | |f|last|id|]; cbn [step fades_finished].
  - intros Hc.
    destruct (handle_ipc_command_cases _ _ _ _ Hc)
      as [-> | [(file & d & ->) | [-> | ->]]].
    + lia.
    + pose proof (play_media_fades op file d s) as Hp. cbn zeta in Hp. lia.
    + destruct (stop_playback_fades s) as (-> & -> & _).
      destruct (background_available E s), (is_transitioning s); cbn; lia.
    + unfold close. cbn.
      pose proof (stop_video_thread_frame (set_ipc_running false s))
        as (-> & _ & -> & _).
      cbn. rewrite fade_outs_app. cbn. lia.
  - intros [= <-]. cbn. lia.
  - intros [= <-]. destruct (on_fade_finished_fades s) as [-> ->].
    destruct (is_transitioning s); lia.
  - intros [= <-]. rewrite update_frame_fades.
    pose proof (update_frame_frame f s) as (_ & _ & -> & _). lia.
  - intros [= <-]. unfold on_video_finished. destruct last as [f|]; [|lia].
    cbn. rewrite fade_outs_app, update_frame_fades.
    pose proof (update_frame_frame f s) as (_ & _ & -> & _). cbn. lia.
  - intros [= <-]. unfold thread_exited.
    destruct (threads s !! id); cbn; lia.
  - intros [= <-]. unfold display_initial_background.
    destruct (background_image s) as [bg|]; [|lia].
    destruct (negb (String.eqb bg EmptyString) && path_exists E bg); [|lia].
    rewrite display_image_fades.
    pose proof (display_image_frame (Some bg) 0 true s) as (_ & _ & -> & _). lia.
Qed.

Lemma fades_finished_cons (ev : event) (evs : list event) :
  fades_finished (ev :: evs) = (fades_finished [ev] + fades_finished evs)%nat.
Proof. destruct ev; reflexivity. Qed.

Lemma run_fades (evs : list event) (s s' : state) :
  run E evs s = Some s' →
  (fade_outs (trace s') + (if is_transitioning s then 1 else 0)
   ≤ fade_outs (trace s) + (if is_transitioning s' then 1 else 0)
     + fades_finished evs)%nat.
Proof.
  revert s. induction evs as [|ev evs IH]; intros s; cbn [run].
  - intros [= <-]. cbn. lia.
  - destruct (step E s ev) as [s1|] eqn:Hstep; [|discriminate].
    intros Hrun. specialize (IH _ Hrun).
    pose proof (step_fades _ _ _ Hstep). rewrite fades_finished_cons. lia.
Qed.

(** C6: while a fade-out is in flight a further fade-out request returns
    at once and changes nothing; two Stop commands in a row start one
    fade-out if none was in flight and a background is configured, and
    none otherwise; and over any run of the controller every fade-out
    but the one in flight has been reported finished before the next one
    starts, so no two ever run at once. *)
Theorem fade_out_guard (s : state) :
  (is_transitioning s = true → fade_out s = s)
  ∧ is_transitioning (fade_out s) = true
  ∧ fade_outs (trace (stop_playback E true (stop_playback E true s)))
    = (fade_outs (trace s)
       + (if background_available E s && negb (is_transitioning s) then 1 else 0))%nat
  ∧ (∀ evs s', run E evs s = Some s' →
       (fade_outs (trace s') + (if is_transitioning s then 1 else 0)
        ≤ fade_outs (trace s) + (if is_transitioning s' then 1 else 0)
          + fades_finished evs)%nat).
Proof.
  split; [apply fade_out_in_flight | split; [apply fade_out_transitions | split]].
  - destruct (stop_playback_fades (stop_playback E true s)) as (-> & _).
    destruct (stop_playback_fades s) as (-> & -> & Hb).
    assert (Hav : background_available E (stop_playback E true s)
                  = background_available E s).
    { unfold background_available. rewrite Hb. reflexivity. }
    rewrite Hav.
    destruct (background_available E s), (is_transitioning s); cbn; lia.
  - intros evs s'. apply run_fades.
Qed.

(** *** Quiet events: timer expiry, end of a fade, return of a producer *)



(** *** C2: the pending transition *)

Lemma display_video_threads (path : string) (duration : Z) (s : state) :
  let s' := display_video path duration s in
  threads s' = threads (stop_video_thread s) ++ [VThread path duration true true]
  ∧ video_thread s' = Some (length (threads s)).
Proof.
  pose proof (stop_video_thread_frame s) as (_ & _ & _ & _ & _ & _ & _ & _ & Hlen).
  unfold display_video. cbn. rewrite Hlen. split; reflexivity.
Qed.



(** *** C1: one producer at a time *)

Lemma alive_count_app (a b : list vthread) :
  alive_count (a ++ b) = (alive_count a + alive_count b)%nat.
Proof.
  induction a as [|t a IH]; [reflexivity|]. cbn [alive_count app]. rewrite IH. lia.
Qed.

Lemma all_dead_count (l : list vthread) :
  (∀ i t, l !! i = Some t → vt_alive t = false) → alive_count l = 0%nat.
Proof.
  induction l as [|t l IH]; intros Hdead; [reflexivity|]. cbn [alive_count].
  rewrite (Hdead 0%nat t eq_refl), IH; [reflexivity|].
  intros i t' Hi. exact (Hdead (S i) t' Hi).
Qed.

(** If any two running producers are the same one, at most one runs. *)
Lemma alive_count_le_1 (l : list vthread) :
  (∀ i j ti tj, l !! i = Some ti → l !! j = Some tj →
                vt_alive ti = true → vt_alive tj = true → i = j) →
  (alive_count l ≤ 1)%nat.
Proof.
  induction l as [|t l IH]; intros Huniq; cbn [alive_count]; [lia|].
  destruct (vt_alive t) eqn:Ht.
  - rewrite all_dead_count; [lia|].
    intros i t' Hi. destruct (vt_alive t') eqn:Ht'; [|reflexivity].
    discriminate (Huniq 0%nat (S i) t t' eq_refl Hi Ht Ht').
  - cbn. apply IH. intros i j ti tj Hi Hj Hai Haj.
    specialize (Huniq (S i) (S j) ti tj Hi Hj Hai Haj). lia.
Qed.

Lemma single_session_count (s : state) :
  single_session s → (alive_count (threads s) ≤ 1)%nat.
Proof.
  intros Hs. apply alive_count_le_1. intros i j ti tj Hi Hj Hai Haj.
  pose proof (Hs i ti Hi Hai) as H1. pose proof (Hs j tj Hj Haj) as H2.
  congruence.
Qed.

Lemma single_session_same (s s' : state) :
  threads s' = threads s → video_thread s' = video_thread s →
  single_session s → single_session s'.
Proof. unfold single_session. intros -> ->. auto. Qed.

(** After the guard no producer is running. *)
Lemma stop_video_thread_dead (s : state) :
  single_session s →
  ∀ i t, threads (stop_video_thread s) !! i = Some t → vt_alive t = false.
Proof.
  intros Hs i t. unfold stop_video_thread.
  destruct (video_thread s) as [k|] eqn:Hv.
  - destruct (threads s !! k) as [tk|] eqn:Hk.
    + destruct (vt_alive tk) eqn:Hak.
      * cbn [threads set_threads]. intros Hi.
        destruct (decide (i = k)) as [->|Hne].
        -- rewrite list_lookup_insert_eq in Hi by (eapply lookup_lt_Some; eassumption).
           injection Hi as <-. reflexivity.
        -- rewrite list_lookup_insert_ne in Hi by congruence.
           destruct (vt_alive t) eqn:Hat; [|reflexivity].
           pose proof (Hs i t Hi Hat). congruence.
      * intros Hi. destruct (vt_alive t) eqn:Hat; [|reflexivity].
        pose proof (Hs i t Hi Hat). congruence.
    + intros Hi. destruct (vt_alive t) eqn:Hat; [|reflexivity].
      pose proof (Hs i t Hi Hat). congruence.
  - intros Hi. destruct (vt_alive t) eqn:Hat; [|reflexivity].
    pose proof (Hs i t Hi Hat). congruence.
Qed.

Lemma stop_video_thread_single (s : state) :
  single_session s →
  single_session (stop_video_thread s)
  ∧ alive_count (threads (stop_video_thread s)) = 0%nat.
Proof.
  intros Hs. pose proof (stop_video_thread_dead s Hs) as Hdead. split.
  - intros i t Hi Ha. rewrite (Hdead i t Hi) in Ha. discriminate.
  - apply all_dead_count. exact Hdead.
Qed.

(** A new producer is created only after the guard, so it is the only
    one running. *)
Lemma display_video_single (path : string) (d : Z) (s : state) :
  single_session s →
  single_session (display_video path d s)
  ∧ alive_count (threads (display_video path d s)) = 1%nat.
Proof.
  intros Hs. destruct (display_video_threads path d s) as (Hth & Hv).
  pose proof (stop_video_thread_dead s Hs) as Hdead.
  pose proof (stop_video_thread_frame s) as (_ & _ & _ & _ & _ & _ & _ & _ & Hlen).
  split.
  - intros i t Hi Ha. rewrite Hth in Hi. rewrite Hv.
    destruct (decide (i < length (threads (stop_video_thread s)))%nat) as [Hlt|Hge].
    + rewrite lookup_app_l in Hi by assumption.
      rewrite (Hdead i t Hi) in Ha. discriminate.
    + rewrite lookup_app_r in Hi by lia.
      destruct (i - length (threads (stop_video_thread s)))%nat as [|n] eqn:Hn;
        [|destruct n; discriminate Hi].
      f_equal. lia.
  - rewrite Hth, alive_count_app, (all_dead_count _ Hdead). reflexivity.
Qed.

Lemma thread_exited_single (id : nat) (s : state) :
  single_session s → single_session (thread_exited id s).
Proof.
  intros Hs. unfold thread_exited. destruct (threads s !! id) as [t0|] eqn:H0;
    [|exact Hs].
  intros i t Hi Ha. cbn [threads video_thread set_threads] in *.
  destruct (decide (i = id)) as [->|Hne].
  - rewrite list_lookup_insert_eq in Hi by (eapply lookup_lt_Some; eassumption).
    injection Hi as <-. discriminate Ha.
  - rewrite list_lookup_insert_ne in Hi by congruence. exact (Hs i t Hi Ha).
Qed.

Lemma emit_single (es : list effect) (s : state) :
  single_session s → single_session (emit es s).
Proof. intros Hs. exact Hs. Qed.

Lemma set_is_transitioning_single (b : bool) (s : state) :
  single_session s → single_session (set_is_transitioning b s).
Proof. intros Hs. exact Hs. Qed.

Lemma display_image_single (path : option string) (d : Z) (bg : bool) (s : state) :
  single_session s → single_session (display_image E path d bg s).
Proof.
  pose proof (display_image_frame path d bg s) as (Ht & Hv & _).
  apply single_session_same; assumption.
Qed.

Lemma update_frame_single (f : frame) (s : state) :
  single_session s → single_session (update_frame E f s).
Proof.
  pose proof (update_frame_frame f s) as (Ht & Hv & _).
  apply single_session_same; assumption.
Qed.

Lemma fade_out_single (s : state) :
  single_session s →
  single_session (fade_out s)
  ∧ (is_transitioning s = false → alive_count (threads (fade_out s)) = 0%nat).
Proof.
  intros Hs. destruct (is_transitioning s) eqn:Htr.
  - rewrite fade_out_in_flight by assumption. split; [exact Hs | discriminate].
  - destruct (fade_out_fresh s Htr) as (_ & _ & _ & _ & _ & _ & Hv & Hth).
    destruct (stop_video_thread_single s Hs) as [Hss Hz].
    pose proof (stop_video_thread_frame s) as (_ & Hv' & _).
    split.
    + apply (single_session_same (stop_video_thread s)); [assumption | congruence | assumption].
    + intros _. rewrite Hth. exact Hz.
Qed.

Lemma play_media_single (opacity : float) (file : string) (d : Z) (s : state) :
  single_session s → single_session (play_media E opacity file d s).
Proof.
  intros Hs. unfold play_media.
  destruct (path_exists E file); cbn [negb]; [|exact Hs].
  destruct (PrimFloat.ltb 0 opacity).
  - apply fade_out_single. exact Hs.
  - unfold fade_in. apply emit_single.
    destruct (is_image_ext (suffix_lower E file)).
    + apply display_image_single. exact Hs.
    + apply display_video_single. exact Hs.
Qed.

Lemma stop_playback_single (rtb : bool) (s : state) :
  single_session s →
  single_session (stop_playback E rtb s)
  ∧ alive_count (threads (stop_playback E rtb s)) = 0%nat.
Proof.
  intros Hs. unfold stop_playback.
  set (s2 := set_media_timer None (emit [Log MsgStopping] s)).
  assert (Hs2 : single_session s2) by exact Hs.
  destruct (stop_video_thread_single s2 Hs2) as [Hss Hz].
  destruct (rtb && background_available E (stop_video_thread s2));
    [|split; assumption].
  set (s4 := set_pending_command (Some PendBackground) (stop_video_thread s2)).
  assert (Hs4 : single_session s4) by exact Hss.
  split; [apply fade_out_single; exact Hs4|].
  destruct (is_transitioning s4) eqn:Htr.
  - rewrite fade_out_in_flight by assumption. exact Hz.
  - apply fade_out_single; assumption.
Qed.

Lemma on_fade_finished_single (s : state) :
  single_session s → single_session (on_fade_finished E s).
Proof.
  intros Hs. unfold on_fade_finished.
  destruct (pending_command s) as [[file d is_image|]|]; [| |exact Hs].
  - apply set_is_transitioning_single. unfold fade_in. apply emit_single.
    destruct is_image.
    + apply display_image_single. exact Hs.
    + apply display_video_single. exact Hs.
  - apply set_is_transitioning_single. unfold fade_in. apply emit_single.
    apply display_image_single. exact Hs.
Qed.

Lemma step_single (s s' : state) (ev : event) :
  step E s ev = Some s' → single_session s → single_session s'.
Proof.
  intros Hstep Hs. destruct ev as [c op| | |f|last|id|]; cbn [step] in Hstep.
  - destruct (handle_ipc_command_cases _ _ _ _ Hstep)
      as [-> | [(file & d & ->) | [-> | ->]]].
    + exact Hs.
    + apply play_media_single. exact Hs.
    + apply stop_playback_single. exact Hs.
    + unfold close. apply emit_single.
      apply stop_video_thread_single. exact Hs.
  - injection Hstep as <-. exact Hs.
  - injection Hstep as <-. apply on_fade_finished_single. exact Hs.
  - injection Hstep as <-. apply update_frame_single. exact Hs.
  - injection Hstep as <-. unfold on_video_finished. destruct last as [f|]; [|exact Hs].
    apply emit_single. apply update_frame_single. exact Hs.
  - injection Hstep as <-. apply thread_exited_single. exact Hs.
  - injection Hstep as <-. unfold display_initial_background.
    destruct (background_image s) as [bg|]; [|exact Hs].
    destruct (negb (String.eqb bg EmptyString) && path_exists E bg); [|exact Hs].
    apply display_image_single. exact Hs.
Qed.

Lemma run_single (evs : list event) (s s' : state) :
  run E evs s = Some s' → single_session s → single_session s'.
Proof.
  revert s. induction evs as [|ev evs IH]; intros s; cbn [run].
  - intros [= <-]. auto.
  - destruct (step E s ev) as [s1|] eqn:Hstep; [|discriminate].
    intros Hrun Hs. apply (IH s1 Hrun). exact (step_single _ _ _ Hstep Hs).
Qed.

(** C1: in every state the controller reaches from start-up, whatever
    commands and other events it has processed, at most one producer is
    running, and it is the one in [self.video_thread]; the guard that
    precedes the creation of a producer, a fade-out that goes ahead, and a
    Stop leaves none running (stop and join), so a newly created producer
    is the only one. *)
Theorem at_most_one_producer (background : option string)
    (evs : list event) (s : state) :
  run E evs (init_state background) = Some s →
  (alive_count (threads s) ≤ 1)%nat
  ∧ single_session s
  ∧ alive_count (threads (stop_video_thread s)) = 0%nat
  ∧ (∀ path d,
       alive_count (threads (display_video path d s)) = 1%nat
       ∧ threads (display_video path d s)
         = threads (stop_video_thread s) ++ [VThread path d true true])
  ∧ (is_transitioning s = false → alive_count (threads (fade_out s)) = 0%nat)
  ∧ (∀ rtb, alive_count (threads (stop_playback E rtb s)) = 0%nat).
Proof.
  intros Hrun.
  assert (Hs : single_session s).
  { apply (run_single evs (init_state background) s Hrun).
    intros i t Hi. destruct i; discriminate Hi. }
  split; [apply single_session_count; exact Hs|].
  split; [exact Hs|].
  split; [apply stop_video_thread_single; exact Hs|].
  split.
  { intros path d. split; [apply display_video_single; exact Hs|].
    apply display_video_threads. }
  split; [apply fade_out_single; exact Hs|].
  intros rtb. apply stop_playback_single. exact Hs.
Qed.

End PlayerFacts.

(** A PLAY command that names no file is dropped by the handler. *)
Example play_without_file_is_dropped :
  Player.handle_ipc_command Examples.env 1 Examples.play_nothing Examples.started
  = Some Examples.started.
Proof. reflexivity. Qed.

Lemma at_most_one_producer_witness :
  (Player.alive_count (Player.threads Examples.after_two_plays) ≤ 1)%nat
  ∧ Player.alive_count
      (Player.threads (Player.stop_playback Examples.env true Examples.after_two_plays))
    = 0%nat.
Proof.
  pose proof (at_most_one_producer Examples.env (Some "bg.png"%string)
                Examples.two_plays Examples.after_two_plays
                ltac:(vm_compute; reflexivity)) as (Hle & _ & _ & _ & _ & Hstop).
  split; [exact Hle | exact (Hstop true)].
Defined.


Lemma fade_out_guard_witness :
  Player.fade_out Examples.fading = Examples.fading
  ∧ Player.fade_outs
      (Player.trace
         (Player.stop_playback Examples.env true
            (Player.stop_playback Examples.env true Examples.started)))
    = 1%nat.
Proof.
  pose proof (fade_out_guard Examples.env Examples.fading) as (Hnoop & _).
  pose proof (fade_out_guard Examples.env Examples.started) as (_ & _ & Htwice & _).
  split; [exact (Hnoop eq_refl) | exact Htwice].
Defined.

(** * Further properties of the code *)

(** ** The frame producer: sleeps, the finished signal, stop *)

Section VideoThreadMore.

Import VideoThread.

Lemma sleeps_app (a b : list action) : sleeps (a ++ b) = sleeps a ++ sleeps b.
Proof.
  induction a as [|x a IH]; [reflexivity|].
  destruct x; cbn [sleeps app]; rewrite IH; reflexivity.
Qed.

Lemma finished_app (a b : list action) :
  finished (a ++ b) = finished a ++ finished b.
Proof.
  induction a as [|x a IH]; [reflexivity|].
  destruct x; cbn [finished app]; rewrite IH; reflexivity.
Qed.

(** Strictly below implies at most. *)
Lemma ltb_leb (x y : float) :
  PrimFloat.ltb x y = true → PrimFloat.leb x y = true.
Proof.
  rewrite ltb_spec, leb_spec. unfold SFltb, SFleb.
  destruct (SFcompare (Prim2SF x) (Prim2SF y)) as [[]|]; congruence.
Qed.

(** A sleep the loop may take: at least 1 ms, at most 100 ms. *)
Definition bounded_sleep (s : float) : Prop :=
  PrimFloat.leb 0.001 s = true ∧ PrimFloat.ltb 0.1 s = false.

Lemma av_sync_bounded (pts audio s : float) :
  av_sync pts audio = SleepFor s → bounded_sleep s.
Proof.
  unfold av_sync, Py.min.
  destruct (PrimFloat.ltb 0 audio && PrimFloat.ltb 0 pts).
  - destruct (PrimFloat.ltb 0.001 (PrimFloat.sub pts audio)) eqn:Hahead.
    + destruct (PrimFloat.ltb 0.1 (PrimFloat.sub pts audio)) eqn:Hcap;
        intros [= <-]; split.
      * reflexivity.
      * reflexivity.
      * apply ltb_leb. exact Hahead.
      * exact Hcap.
    + destruct (PrimFloat.ltb (PrimFloat.sub pts audio) (-0.05)); discriminate.
  - intros [= <-]. split; reflexivity.
Qed.

Lemma iteration_sleeps_bounded (duration : Z) (t : tick) (l : locals) :
  Forall bounded_sleep (sleeps (output (iteration duration t l))).
Proof.
  unfold iteration.
  destruct (negb (running t)); [constructor|].
  destruct ((0 <? duration) && Py.float_ge_int (elapsed t) duration);
    [constructor|].
  destruct (got t) as [| | |[img|] pts| |img' pts']; cbn [output sleeps];
    try (repeat constructor; fail).
  destruct (img_converts img); [|constructor].
  destruct (av_sync pts (audio_pts t)) as [s| |] eqn:Hs; cbn [output sleeps];
    [|constructor|constructor].
  constructor; [|constructor]. exact (av_sync_bounded _ _ _ Hs).
Qed.

(** X1: whatever the decode session answers and however long the loop
    runs, every sleep the producer takes lasts at least 1 ms and at most
    100 ms, so the stop flag is looked at again within 100 ms of any
    sleep. *)
Theorem sleeps_are_bounded (duration : Z) (script : list tick) :
  Forall bounded_sleep (sleeps (run duration script)).
Proof.
  unfold run. generalize start_locals.
  induction script as [|t rest IH]; intros l; cbn [run_from]; [constructor|].
  pose proof (iteration_sleeps_bounded duration t l) as Hit.
  destruct (iteration duration t l) as [out l'|out l']; cbn [output] in Hit;
    rewrite sleeps_app; apply Forall_app; split; try assumption.
  - apply IH.
  - constructor.
Qed.

(** *** The finished signal *)

(** The frame a pass leaves in [last_frame]: the one it emitted, else the
    one held before. *)
Definition held (l : locals) (out : list action) : option frame :=
  match last (emitted out) with
  | Some f => Some f
  | None => last_frame l
  end.

Lemma iteration_holds (duration : Z) (t : tick) (l : locals) :
  match iteration duration t l with
  | Continue out l' => finished out = [] ∧ last_frame l' = held l out
  | Break out l' => finished out = [] ∧ emitted out = [] ∧ l' = l
  end.
Proof.
  unfold iteration, held.
  destruct (negb (running t)); [repeat split|].
  destruct ((0 <? duration) && Py.float_ge_int (elapsed t) duration);
    [repeat split|].
  destruct (got t) as [| | |[img|] pts| |img' pts']; try (repeat split; fail).
  destruct (img_converts img); [|repeat split].
  destruct (av_sync pts (audio_pts t)); repeat split.
Qed.

Lemma held_app (l l' : locals) (out rest : list action) :
  last_frame l' = held l out → held l' rest = held l (out ++ rest).
Proof.
  unfold held. intros Hl. rewrite emitted_app, last_app.
  destruct (last (emitted rest)); [reflexivity | exact Hl].
Qed.

Lemma run_from_finished (duration : Z) (script : list tick) (l : locals) :
  if existsb (leaves duration) script
  then ∃ body, run_from duration script l
               = body ++ [Finished (held l body)]
         ∧ finished body = []
  else finished (run_from duration script l) = [].
Proof.
  revert l. induction script as [|t rest IH]; intros l; cbn [existsb run_from];
    [reflexivity|].
  rewrite (iteration_break_iff duration t l).
  pose proof (iteration_holds duration t l) as Hit.
  destruct (iteration duration t l) as [out l'|out l']; cbn [orb].
  - destruct Hit as [Hfin Hheld]. specialize (IH l').
    destruct (existsb (leaves duration) rest).
    + destruct IH as (body & -> & Hbody). exists (out ++ body).
      rewrite app_assoc, (held_app l l' out body Hheld), finished_app, Hfin, Hbody.
      split; reflexivity.
    + rewrite finished_app, Hfin, IH. reflexivity.
  - destruct Hit as (Hfin & Hem & ->). exists out. split; [|exact Hfin].
    unfold held. rewrite Hem. reflexivity.
Qed.

Lemma run_from_left (duration : Z) (script more : list tick) (l : locals) :
  existsb (leaves duration) script = true →
  run_from duration (script ++ more) l = run_from duration script l.
Proof.
  revert l. induction script as [|t rest IH]; intros l; cbn [existsb];
    [discriminate|].
  cbn [app run_from]. rewrite (iteration_break_iff duration t l).
  destruct (iteration duration t l) as [out l'|out l']; cbn [orb].
  - intros Hrest. rewrite (IH l' Hrest). reflexivity.
  - reflexivity.
Qed.

(** X2: once the loop is left (stop flag, duration cap, end of file or a
    session fault) the producer sends [playback_finished] exactly once,
    as its last action, carrying the last frame it emitted, or the empty
    marker if it emitted none, and it does nothing for any later answer
    of the session; while the loop is not left no finished signal is
    sent. *)
Theorem finished_once_with_last_frame (duration : Z) (script : list tick) :
  (existsb (leaves duration) script = true →
     ∃ body, run duration script
             = body ++ [Finished (last (emitted (run duration script)))]
       ∧ finished body = []
       ∧ ∀ more, run duration (script ++ more) = run duration script)
  ∧ (existsb (leaves duration) script = false →
     finished (run duration script) = []).
Proof.
  pose proof (run_from_finished duration script start_locals) as H.
  split; intros Hleft; rewrite Hleft in H.
  - destruct H as (body & Hrun & Hbody). exists body. unfold run.
    split; [|split; [exact Hbody|]].
    + rewrite Hrun at 1. rewrite Hrun, emitted_app. cbn [emitted].
      rewrite app_nil_r. unfold held. cbn [last_frame start_locals].
      destruct (last (emitted body)); reflexivity.
    + intros more. apply run_from_left. exact Hleft.
  - exact H.
Qed.

Lemma finished_once_with_last_frame_witness :
  ∃ body, run 0 Examples.short_script
          = body ++ [Finished (Some (Frame 1 640 480))]
    ∧ finished body = [].
Proof.
  destruct (proj1 (finished_once_with_last_frame 0 Examples.short_script) eq_refl)
    as (body & Hrun & Hbody & _).
  exists body. split; [exact Hrun | exact Hbody].
Defined.

(** *** stop() *)

Lemma decoded_frames_stopped (duration : Z) (a b : list tick) :
  decoded_frames duration (a ++ (stop_requested <$> b))
  = decoded_frames duration a.
Proof.
  induction a as [|t a IH]; cbn [app decoded_frames].
  - destruct b as [|t b]; reflexivity.
  - rewrite IH. reflexivity.
Qed.

Lemma decoded_frames_app (duration : Z) (a b : list tick) :
  decoded_frames duration (a ++ b)
  = decoded_frames duration a
    ++ (if existsb (leaves duration) a then [] else decoded_frames duration b).
Proof.
  induction a as [|t a IH]; cbn [app decoded_frames existsb]; [reflexivity|].
  destruct (leaves duration t); cbn [orb]; [reflexivity|].
  rewrite IH. destruct (converted t); reflexivity.
Qed.

(** The local variables when a script has been polled through. *)
Fixpoint locals_after (duration : Z) (script : list tick) (l : locals) : locals :=
  match script with
  | [] => l
  | t :: rest =>
      match iteration duration t l with
      | Continue _ l' => locals_after duration rest l'
      | Break _ l' => l'
      end
  end.

Lemma run_from_app_going (duration : Z) (a b : list tick) (l : locals) :
  existsb (leaves duration) a = false →
  run_from duration (a ++ b) l
  = run_from duration a l ++ run_from duration b (locals_after duration a l).
Proof.
  revert l. induction a as [|t a IH]; intros l; cbn [existsb app run_from locals_after];
    [reflexivity|].
  rewrite (iteration_break_iff duration t l).
  destruct (iteration duration t l) as [out l'|out l']; cbn [orb];
    [|discriminate].
  intros Ha. rewrite (IH l' Ha), app_assoc. reflexivity.
Qed.

Lemma locals_after_held (duration : Z) (a : list tick) (l : locals) :
  existsb (leaves duration) a = false →
  last_frame (locals_after duration a l) = held l (run_from duration a l).
Proof.
  revert l. induction a as [|t a IH]; intros l; cbn [existsb run_from locals_after].
  - intros _. reflexivity.
  - rewrite (iteration_break_iff duration t l).
    pose proof (iteration_holds duration t l) as Hit.
    destruct (iteration duration t l) as [out l'|out l']; cbn [orb];
      [|discriminate].
    intros Ha. destruct Hit as [_ Hheld].
    rewrite (IH l' Ha). apply held_app. exact Hheld.
Qed.

Lemma held_start (out : list action) : held start_locals out = last (emitted out).
Proof. unfold held. cbn. destruct (last (emitted out)); reflexivity. Qed.

(** A pass in which the session is gone converts no frame. *)
Lemma landed_gone (w : landing) (t : tick) :
  w = AtGetFrame ∨ w = AtGetPts → converted (landed w t) = None.
Proof.
  intros [-> | ->]; unfold converted, landed; [reflexivity|].
  destruct (got t) as [| | |[img|] pts| |img' pts'] eqn:Hgot; cbn [got];
    rewrite ?Hgot; reflexivity.
Qed.

(** With the session gone when it is needed, a pass that was going logs
    the fault and leaves the loop. *)
Lemma iteration_gone (duration : Z) (w : landing) (t : tick) (l : locals) :
  leaves duration t = false →
  w = AtGetFrame ∨ (w = AtGetPts ∧ ∃ img pts, got t = Decoded (Some img) pts) →
  iteration duration (landed w t) l = Break [Log MsgPlaybackError] l.
Proof.
  intros Hl Hw. apply leaves_false in Hl as (Hrun & Hdur & _).
  destruct Hw as [-> | (-> & img & pts & Hgot)]; unfold landed; rewrite ?Hgot;
    unfold iteration; cbn [running elapsed got]; rewrite Hrun, Hdur; reflexivity.
Qed.

(** X3: [stop()] is honoured within the pass it lands in. When it is
    called while the loop is in its pass number n, the frames emitted are
    those of the passes before n and at most one more, the one of pass n;
    that one is not emitted when the session is already gone ([self.player]
    is None) where the pass needs it, and the pass then ends in the error
    handler: the output is that of the passes before, the error line and
    the finished signal; when the pass no longer needs the session the
    frames are exactly those of the first n+1 passes. If the session had
    more to answer, the loop is left at the next loop head at the latest
    and the finished signal is sent once, last, with the last frame
    emitted. A [stop()] that comes before the first loop head lets no
    frame out at all. *)
Theorem stop_is_honoured (duration : Z) (n : nat) (w : landing)
    (script : list tick) :
  let out := run duration (stopped_during n w script) in
  let before := emitted (run duration (take n script)) in
  (∃ rest, emitted out = before ++ rest ∧ (length rest ≤ 1)%nat)
  ∧ (w = AtGetFrame ∨ w = AtGetPts → emitted out = before)
  ∧ (w = AfterSession →
       emitted out = decoded_frames duration (take (S n) script))
  ∧ ((S n < length script)%nat →
       ∃ body, out = body ++ [Finished (last (emitted out))]
         ∧ finished body = [])
  ∧ (∀ t, script !! n = Some t →
       existsb (leaves duration) (take (S n) script) = false →
       w = AtGetFrame
       ∨ (w = AtGetPts ∧ ∃ img pts, got t = Decoded (Some img) pts) →
       out = run duration (take n script)
             ++ [Log MsgPlaybackError; Finished (last before)])
  ∧ emitted (run duration (stop_requested <$> script)) = [].
Proof.
  intros out before.
  assert (Hem : emitted out
                = before
                  ++ (if existsb (leaves duration) (take n script) then []
                      else decoded_frames duration
                             (landed w <$> take 1 (drop n script)))).
  { unfold out, before, run, stopped_during.
    rewrite !emitted_run_from, app_assoc, decoded_frames_stopped.
    apply decoded_frames_app. }
  split; [|split; [|split; [|split; [|split]]]];
    [| | | | |unfold run; rewrite emitted_run_from;
              apply (decoded_frames_stopped duration [] script)].
  - eexists. split; [exact Hem|].
    destruct (existsb (leaves duration) (take n script)); [cbn; lia|].
    destruct (drop n script) as [|t rest]; [cbn; lia|].
    change (take 1 (t :: rest)) with [t].
    cbn [fmap list_fmap decoded_frames].
    destruct (leaves duration (landed w t)); [cbn; lia|].
    destruct (converted (landed w t)); cbn [length]; lia.
  - intros Hw. rewrite Hem.
    destruct (existsb (leaves duration) (take n script)); [apply app_nil_r|].
    destruct (drop n script) as [|t rest]; [apply app_nil_r|].
    change (take 1 (t :: rest)) with [t].
    cbn [fmap list_fmap decoded_frames].
    rewrite (landed_gone w t Hw).
    destruct (leaves duration (landed w t)); apply app_nil_r.
  - intros ->. unfold out, run, stopped_during.
    rewrite emitted_run_from, app_assoc, decoded_frames_stopped.
    f_equal. change (landed AfterSession) with (@id tick). rewrite list_fmap_id.
    rewrite take_take_drop. f_equal. lia.
  - intros Hlen.
    assert (Hleft : existsb (leaves duration) (stopped_during n w script) = true).
    { unfold stopped_during. rewrite !existsb_app.
      apply orb_true_iff. right. apply orb_true_iff. right.
      destruct (drop (S n) script) as [|t rest] eqn:Hd.
      - apply (f_equal length) in Hd. rewrite length_drop in Hd.
        cbn in Hd. lia.
      - reflexivity. }
    pose proof (run_from_finished duration (stopped_during n w script) start_locals)
      as H.
    rewrite Hleft in H. destruct H as (body & Hrun & Hbody).
    exists body. split; [|exact Hbody].
    unfold out, run. rewrite Hrun at 1. rewrite Hrun, emitted_app. cbn [emitted].
    rewrite app_nil_r, held_start. reflexivity.
  - intros t Ht Hgoing Hw.
    rewrite (take_S_r _ _ _ Ht), existsb_app in Hgoing.
    apply orb_false_elim in Hgoing as [Hbefore Hpass].
    cbn [existsb] in Hpass. rewrite orb_false_r in Hpass.
    unfold out, before, run, stopped_during.
    rewrite (drop_S _ _ _ Ht). change (take 1 (t :: drop (S n) script)) with [t].
    cbn [fmap list_fmap app].
    rewrite (run_from_app_going _ _ _ _ Hbefore). f_equal.
    cbn [run_from]. rewrite (iteration_gone duration w t _ Hpass Hw).
    cbn [app]. rewrite (locals_after_held _ _ _ Hbefore), held_start.
    reflexivity.
Qed.

Lemma stop_is_honoured_witness :
  run 0 (stopped_during 0 AtGetFrame Examples.lagging_script)
  = [Log MsgPlaybackError; Finished None]
  ∧ run 0 (stopped_during 1 AtGetPts Examples.lagging_script)
    = [ Emit (Frame 0 640 480); Sleep 0.001; Log MsgPlaybackError;
        Finished (Some (Frame 0 640 480)) ]
  ∧ emitted (run 0 (stopped_during 1 AfterSession Examples.lagging_script))
    = [Frame 0 640 480; Frame 1 640 480].
Proof.
  split; [|split].
  - exact (proj1 (proj2 (proj2 (proj2 (proj2
             (stop_is_honoured 0 0 AtGetFrame Examples.lagging_script)))))
             (Examples.lagging_tick 0 0) eq_refl eq_refl (or_introl eq_refl)).
  - exact (proj1 (proj2 (proj2 (proj2 (proj2
             (stop_is_honoured 0 1 AtGetPts Examples.lagging_script)))))
             (Examples.lagging_tick 1 1) eq_refl eq_refl
             (or_intror (conj eq_refl
                (ex_intro _ (Examples.picture 1) (ex_intro _ 1%float eq_refl))))).
  - exact (proj1 (proj2 (proj2
             (stop_is_honoured 0 1 AfterSession Examples.lagging_script)))
             eq_refl).
Defined.

End VideoThreadMore.

(** ** The command channel: replies, the client, the command line *)

Section ClientFacts.

Import Player IPCServer Client.

Context (C : Codec).

(** The six ways [serve] can go, by what was received. *)
Lemma serve_cases (received : list Byte.byte) :
  (utf8_decode C received = None ∧ serve C received = [Log MsgIPCError])
  ∨ (utf8_decode C received = Some EmptyString ∧ serve C received = [Close])
  ∨ (∃ data, utf8_decode C received = Some data ∧ data ≠ EmptyString
       ∧ json_loads C data = JSONDecodeError
       ∧ serve C received = [Log MsgInvalidJSON; Send "ERROR"; Close])
  ∨ (∃ data, utf8_decode C received = Some data ∧ data ≠ EmptyString
       ∧ json_loads C data = OtherError
       ∧ serve C received = [Log MsgIPCError])
  ∨ (∃ data, utf8_decode C received = Some data ∧ data ≠ EmptyString
       ∧ json_loads C data = Returns PNotObject
       ∧ serve C received = [Log (MsgReceived PNotObject); Log MsgIPCError])
  ∨ (∃ d, well_formed C received d
       ∧ serve C received
         = [Log (MsgReceived (PObject d)); Emit d; Send "OK"; Close]).
Proof.
  unfold serve, well_formed.
  destruct (utf8_decode C received) as [data|]; [|left; split; reflexivity].
  destruct (decide (data = EmptyString)) as [->|Hne];
    [right; left; split; reflexivity|].
  destruct (json_loads C data) as [[d|]| |] eqn:Hjson.
  - do 5 right. exists d.
    split; [exists data; split; [reflexivity | exact Hjson] | reflexivity].
  - do 4 right. left. exists data. repeat split; assumption.
  - do 2 right. left. exists data. repeat split; assumption.
  - do 3 right. left. exists data. repeat split; assumption.
Qed.

(** The payloads that end in the handler of line 199: bytes that are not
    UTF-8, text on which [json.loads] raises something other than a
    JSONDecodeError, and JSON that is not an object. *)
Definition reaches_outer_handler (received : list Byte.byte) : Prop :=
  utf8_decode C received = None
  ∨ ∃ data, utf8_decode C received = Some data
            ∧ (json_loads C data = OtherError
               ∨ json_loads C data = Returns PNotObject).

(** X4: on any connection whose socket calls go through, the server
    writes at most one reply and hands at most one command to the
    controller; it replies OK exactly when it handed over a command, which
    is exactly when the payload parsed as an object; it replies ERROR
    exactly when the payload is non-empty text on which [json.loads]
    raises JSONDecodeError; and the connection is left unclosed, with no
    reply, exactly when the payload is not UTF-8, or [json.loads] raises
    something else on it, or it parses to something that is not an
    object. *)
Theorem reply_ok_iff_dispatched (received : list Byte.byte) :
  let out := serve C received in
  (replies out = [] ∨ replies out = ["OK"%string] ∨ replies out = ["ERROR"%string])
  ∧ (replies out = ["OK"%string] ↔ ∃ d, dispatched out = [d])
  ∧ (∀ d, dispatched out = [d] ↔ well_formed C received d)
  ∧ (replies out ≠ ["OK"%string] → dispatched out = [])
  ∧ (replies out = ["ERROR"%string] ↔
       ∃ data, utf8_decode C received = Some data ∧ data ≠ EmptyString
               ∧ json_loads C data = JSONDecodeError)
  ∧ (closes out = false ↔ reaches_outer_handler received)
  ∧ (closes out = false → replies out = []).
Proof.
  cbn zeta. unfold reaches_outer_handler.
  destruct (serve_cases received)
    as [(Hdec & ->) | [(Hdec & ->) | [(data & Hdec & Hne & Hjson & ->)
       | [(data & Hdec & Hne & Hjson & ->)
       | [(data & Hdec & Hne & Hjson & ->) | (d & Hwf & ->)]]]]];
    cbn [replies dispatched closes existsb orb].
  - split; [auto|]. split; [split; [discriminate | intros (d & [=])]|].
    split; [intros d; split; [intros [=] | intros (data & Hd & _); congruence]|].
    split; [reflexivity|].
    split; [split; [discriminate | intros (data & Hd & _); congruence]|].
    split; [split; auto | reflexivity].
  - split; [auto|]. split; [split; [discriminate | intros (d & [=])]|].
    split.
    { intros d. split; [intros [=]|]. intros (data & Hd & Hj).
      rewrite Hdec in Hd. injection Hd as <-.
      rewrite (json_loads_empty C) in Hj. discriminate. }
    split; [reflexivity|].
    split; [split; [discriminate | intros (data & Hd & Hn & _); congruence]|].
    split; [|discriminate]. split; [discriminate|].
    intros [Hn | (data & Hd & Hj)]; [congruence|].
    rewrite Hdec in Hd. injection Hd as <-.
    rewrite (json_loads_empty C) in Hj. destruct Hj; discriminate.
  - split; [auto|]. split; [split; [discriminate | intros (d & [=])]|].
    split; [intros d; split; [intros [=] | intros (data' & Hd & Hj); congruence]|].
    split; [reflexivity|].
    split; [split; [intros _; exists data; auto | reflexivity]|].
    split; [|discriminate]. split; [discriminate|].
    intros [Hn | (data' & Hd & [Hj | Hj])]; congruence.
  - split; [auto|]. split; [split; [discriminate | intros (d & [=])]|].
    split; [intros d; split; [intros [=] | intros (data' & Hd & Hj); congruence]|].
    split; [reflexivity|].
    split; [split; [discriminate | intros (data' & Hd & _ & Hj); congruence]|].
    split; [|reflexivity]. split; [|reflexivity].
    intros _. right. exists data. split; [assumption | left; assumption].
  - split; [auto|]. split; [split; [discriminate | intros (d & [=])]|].
    split; [intros d; split; [intros [=] | intros (data' & Hd & Hj); congruence]|].
    split; [reflexivity|].
    split; [split; [discriminate | intros (data' & Hd & _ & Hj); congruence]|].
    split; [|reflexivity]. split; [|reflexivity].
    intros _. right. exists data. split; [assumption | right; assumption].
  - destruct Hwf as (data & Hdec & Hjson).
    split; [auto|]. split; [split; [intros _; exists d; reflexivity | reflexivity]|].
    split.
    { intros d'. split.
      - intros [= <-]. exists data. split; assumption.
      - intros (data' & Hd & Hj). f_equal. congruence. }
    split; [intros H; contradiction H; reflexivity|].
    split; [split; [discriminate | intros (data' & Hd & _ & Hj); congruence]|].
    split; [|discriminate]. split; [discriminate|].
    intros [Hn | (data' & Hd & [Hj | Hj])]; congruence.
Qed.

Section Sending.

Context (dumps : gmap string pyval → list Byte.byte).

(** X5: [send_ipc_command] returns True only if the server handed a
    command to the controller, and it returns False when nobody is
    listening; when the encoded command fits the server's 4096-byte read
    and decodes back to the same dict, it returns True and the command
    handed to the controller is the one that was sent. *)
Theorem send_acknowledged (command : gmap string pyval) :
  send_ipc_command C dumps false command = (false, [])
  ∧ ((send_ipc_command C dumps true command).1 = true →
       ∃ d, dispatched (send_ipc_command C dumps true command).2 = [d]
            ∧ well_formed C (take 4096 (dumps command)) d)
  ∧ ((length (dumps command) ≤ 4096)%nat →
     well_formed C (dumps command) command →
     (send_ipc_command C dumps true command).1 = true
     ∧ dispatched (send_ipc_command C dumps true command).2 = [command]).
Proof.
  split; [reflexivity|]. unfold send_ipc_command. cbn [fst snd]. split.
  - destruct (serve_cases (take 4096 (dumps command)))
      as [(_ & ->) | [(_ & ->) | [(data & _ & _ & _ & ->)
         | [(data & _ & _ & _ & ->)
         | [(data & _ & _ & _ & ->) | (d & Hwf & ->)]]]]];
      cbn [response];
      try (intros Hb; apply bool_decide_eq_true in Hb; discriminate).
    intros _. exists d. split; [reflexivity | exact Hwf].
  - intros Hlen Hwf. rewrite take_ge by exact Hlen.
    rewrite (serve_object C (dumps command) command Hwf). split; reflexivity.
Qed.

End Sending.

Context (E : Env).

Lemma handle_play_request (opacity : float) (filepath : string) (d : Z)
    (s : state) :
  handle_ipc_command E opacity (play_request filepath d) s
  = Some (if String.eqb filepath EmptyString then s
          else play_media E opacity filepath d s).
Proof.
  unfold handle_ipc_command, play_request.
  rewrite lookup_insert_eq.
  rewrite (lookup_insert_ne _ "command"%string "file"%string) by discriminate.
  rewrite lookup_insert_eq.
  rewrite (lookup_insert_ne _ "command"%string "duration"%string) by discriminate.
  rewrite (lookup_insert_ne _ "file"%string "duration"%string) by discriminate.
  rewrite lookup_singleton_eq.
  case_decide; [|contradiction]. cbn [truthy default].
  destruct (String.eqb filepath EmptyString); reflexivity.
Qed.

(** X6: every command [main] puts on the channel is one the controller's
    handler understands: a PLAY it builds is handled by [play_media] with
    the given file and integer duration, except that an empty file name
    is silently ignored; its STOP is handled by [stop_playback]; its EXIT
    closes the window; and [main] sends nothing unless the channel's
    endpoint exists. *)
Theorem cli_commands_are_handled (parse_int : string → option Z)
    (instance_running : bool) (send : gmap string pyval → bool)
    (sleep : float → bool)
    (a : options) (command : gmap string pyval) (opacity : float) (s : state) :
  sent (main parse_int instance_running send sleep a) = Some command →
  instance_running = true
  ∧ ((∃ filepath duration d,
        opt_play a = Some (filepath, duration) ∧ parse_int duration = Some d
        ∧ command = play_request filepath d
        ∧ handle_ipc_command E opacity command s
          = Some (if String.eqb filepath EmptyString then s
                  else play_media E opacity filepath d s))
     ∨ (command = stop_request
        ∧ handle_ipc_command E opacity command s = Some (stop_playback E true s))
     ∨ (command = exit_request
        ∧ handle_ipc_command E opacity command s = Some (close s))).
Proof.
  unfold main.
  destruct (match opt_start a with
            | Some bg => if String.eqb bg EmptyString then None else Some bg
            | None => None
            end); [discriminate|].
  destruct (opt_play a) as [[filepath duration]|].
  - destruct (parse_int duration) as [d|] eqn:Hd; [|discriminate].
    destruct instance_running; [|discriminate].
    cbn zeta. intros Hsent.
    assert (Hcmd : command = play_request filepath d).
    { destruct (send (play_request filepath d));
        [destruct (Py.float_of_int d) as [seconds|];
         [destruct (sleep (PrimFloat.add seconds 0.00001))|]|];
        cbn [sent] in Hsent; congruence. }
    subst command. split; [reflexivity|]. left.
    exists filepath, duration, d.
    split; [reflexivity|]. split; [exact Hd|]. split; [reflexivity|].
    apply handle_play_request.
  - destruct (opt_stop a).
    + destruct instance_running; [|discriminate].
      intros [= <-]. split; [reflexivity|]. right. left. split; reflexivity.
    + destruct (opt_exit a); [|discriminate].
      destruct instance_running; [|discriminate].
      intros [= <-]. split; [reflexivity|]. right. right. split; reflexivity.
Qed.

End ClientFacts.

Lemma send_acknowledged_witness :
  (Client.send_ipc_command Examples.codec Examples.dumps true Client.stop_request).1
  = true
  ∧ IPCServer.dispatched
      (Client.send_ipc_command Examples.codec Examples.dumps true
         Client.stop_request).2
    = [Client.stop_request].
Proof.
  apply (send_acknowledged Examples.codec Examples.dumps Client.stop_request).
  - vm_compute. lia.
  - exists Examples.stop_text. split; reflexivity.
Defined.

Lemma cli_commands_are_handled_witness :
  Player.handle_ipc_command Examples.env 1 (Client.play_request "a.mp4" 5)
    Examples.started
  = Some (Player.play_media Examples.env 1 "a.mp4" 5 Examples.started).
Proof.
  destruct (cli_commands_are_handled Examples.env
              (λ _, Some 5) true (λ _, true) (λ _, true)
              (Client.Options None (Some ("a.mp4", "5")%string) false false false)
              (Client.play_request "a.mp4" 5) 1 Examples.started eq_refl)
    as (_ & [(f & du & d & Hplay & Hint & Hcmd & Hh) | [(Hcmd & _) | (Hcmd & _)]]).
  - injection Hplay as <- <-. injection Hint as <-. exact Hh.
  - exfalso. apply (f_equal (λ m, m !! "command"%string)) in Hcmd.
    vm_compute in Hcmd. discriminate.
  - exfalso. apply (f_equal (λ m, m !! "command"%string)) in Hcmd.
    vm_compute in Hcmd. discriminate.
Defined.

(** ** The controller: the size cache, pending requests, Stop, direct
       play, Exit *)

Section PlayerMore.

Import Player.

Context (E : Env).

(** *** The display-size cache *)

Lemma cache_same (s s' : state) :
  cached_video_size s' = cached_video_size s →
  cached_display_size s' = cached_display_size s →
  cache_consistent E s → cache_consistent E s'.
Proof. unfold cache_consistent. intros -> ->. auto. Qed.

Lemma emit_cache (es : list effect) (s : state) :
  cache_consistent E s → cache_consistent E (emit es s).
Proof. intros H. exact H. Qed.

Lemma set_is_transitioning_cache (b : bool) (s : state) :
  cache_consistent E s → cache_consistent E (set_is_transitioning b s).
Proof. intros H. exact H. Qed.

Lemma stop_video_thread_cache (s : state) :
  cache_consistent E s → cache_consistent E (stop_video_thread s).
Proof.
  apply cache_same; unfold stop_video_thread; repeat case_match; reflexivity.
Qed.

Lemma display_image_cache (path : option string) (d : Z) (bg : bool) (s : state) :
  cache_consistent E s → cache_consistent E (display_image E path d bg s).
Proof.
  apply cache_same; unfold display_image; repeat case_match; reflexivity.
Qed.

Lemma display_video_cache (path : string) (d : Z) (s : state) :
  cache_consistent E (display_video path d s).
Proof. intros key Hkey. discriminate Hkey. Qed.

Lemma update_frame_cache (f : frame) (s : state) :
  cache_consistent E s → cache_consistent E (update_frame E f s).
Proof.
  intros Hs. unfold update_frame.
  destruct (decide (cached_video_size s = Some (fr_width f, fr_height f))).
  - destruct (cached_display_size s) as [size|] eqn:Hd.
    + destruct (resizable size); exact Hs.
    + exact Hs.
  - destruct (Scaling.frame_geometry _ _ _ _) as [size|] eqn:Hg; [|exact Hs].
    assert (Hc : cache_consistent E
                   (set_cache (Some (fr_width f, fr_height f)) (Some size) s)).
    { intros key [= <-]. exists size. split; [reflexivity | exact Hg]. }
    destruct (resizable size); exact Hc.
Qed.

Lemma fade_out_cache (s : state) :
  cache_consistent E s → cache_consistent E (fade_out s).
Proof.
  intros Hs. unfold fade_out. destruct (is_transitioning s); [exact Hs|].
  apply emit_cache, stop_video_thread_cache. exact Hs.
Qed.

Lemma play_media_cache (opacity : float) (file : string) (d : Z) (s : state) :
  cache_consistent E s → cache_consistent E (play_media E opacity file d s).
Proof.
  intros Hs. unfold play_media.
  destruct (path_exists E file); cbn [negb]; [|exact Hs].
  destruct (PrimFloat.ltb 0 opacity).
  - apply fade_out_cache. exact Hs.
  - unfold fade_in. apply emit_cache.
    destruct (is_image_ext (suffix_lower E file)).
    + apply display_image_cache. exact Hs.
    + apply display_video_cache.
Qed.

Lemma stop_playback_cache (rtb : bool) (s : state) :
  cache_consistent E s → cache_consistent E (stop_playback E rtb s).
Proof.
  intros Hs. unfold stop_playback.
  set (s2 := set_media_timer None (emit [Log MsgStopping] s)).
  assert (H3 : cache_consistent E (stop_video_thread s2))
    by (apply stop_video_thread_cache; exact Hs).
  destruct (rtb && background_available E (stop_video_thread s2)); [|exact H3].
  apply fade_out_cache. exact H3.
Qed.

Lemma on_fade_finished_cache (s : state) :
  cache_consistent E s → cache_consistent E (on_fade_finished E s).
Proof.
  intros Hs. unfold on_fade_finished.
  destruct (pending_command s) as [[file d is_image|]|]; [| |exact Hs];
    apply set_is_transitioning_cache; unfold fade_in; apply emit_cache.
  - destruct is_image; [apply display_image_cache; exact Hs
                       | apply display_video_cache].
  - apply display_image_cache. exact Hs.
Qed.

Lemma step_cache (s s' : state) (ev : event) :
  step E s ev = Some s' → cache_consistent E s → cache_consistent E s'.
Proof.
  intros Hstep Hs. destruct ev as [c op| | |f|last|id|]; cbn [step] in Hstep.
  - destruct (handle_ipc_command_cases E _ _ _ _ Hstep)
      as [-> | [(file & d & ->) | [-> | ->]]].
    + exact Hs.
    + apply play_media_cache. exact Hs.
    + apply stop_playback_cache. exact Hs.
    + unfold close. apply emit_cache, stop_video_thread_cache. exact Hs.
  - injection Hstep as <-. exact Hs.
  - injection Hstep as <-. apply on_fade_finished_cache. exact Hs.
  - injection Hstep as <-. apply update_frame_cache. exact Hs.
  - injection Hstep as <-. unfold on_video_finished.
    destruct last as [f|]; [|exact Hs].
    apply emit_cache, update_frame_cache. exact Hs.
  - injection Hstep as <-. unfold thread_exited.
    destruct (threads s !! id); exact Hs.
  - injection Hstep as <-. unfold display_initial_background.
    destruct (background_image s) as [bg|]; [|exact Hs].
    destruct (negb (String.eqb bg EmptyString) && path_exists E bg); [|exact Hs].
    apply display_image_cache. exact Hs.
Qed.

Lemma run_cache (evs : list event) (s s' : state) :
  run E evs s = Some s' → cache_consistent E s → cache_consistent E s'.
Proof.
  revert s. induction evs as [|ev evs IH]; intros s; cbn [run].
  - intros [= <-]. auto.
  - destruct (step E s ev) as [s1|] eqn:Hstep; [|discriminate].
    intros Hrun Hs. apply (IH s1 Hrun). exact (step_cache _ _ _ Hstep Hs).
Qed.

Lemma update_frame_pixmap (f : frame) (s : state) :
  cache_consistent E s →
  label_pixmap (update_frame E f s)
  = match frame_pixmap E f with
    | Some p => Some p
    | None => label_pixmap s
    end.
Proof.
  intros Hs. unfold update_frame, frame_pixmap.
  destruct (decide (cached_video_size s = Some (fr_width f, fr_height f)))
    as [Hhit|Hmiss].
  - destruct (Hs _ Hhit) as (size & -> & Hg). cbn [fst snd] in Hg.
    rewrite Hg. cbn [mbind option_bind].
    destruct (resizable size); reflexivity.
  - destruct (Scaling.frame_geometry _ _ _ _) as [size|]; cbn [mbind option_bind];
      [|reflexivity].
    destruct (resizable size); reflexivity.
Qed.

(** X7: in every state the controller reaches, the cached display size
    is the Fit size of the cached frame shape, so a frame is always shown
    at the Fit size of its own shape, cached or not; a frame whose size
    cannot be computed or resized to leaves the pixmap as it is. *)
Theorem frames_shown_at_fit_size (background : option string)
    (evs : list event) (s : state) (f : frame) :
  run E evs (init_state background) = Some s →
  cache_consistent E s
  ∧ label_pixmap (update_frame E f s)
    = match frame_pixmap E f with
      | Some p => Some p
      | None => label_pixmap s
      end.
Proof.
  intros Hrun.
  assert (Hs : cache_consistent E s).
  { apply (run_cache evs (init_state background) s Hrun).
    intros key Hkey. discriminate Hkey. }
  split; [exact Hs | apply update_frame_pixmap; exact Hs].
Qed.

(** *** Pending requests *)

Lemma on_fade_finished_clears (s : state) :
  pending_command (on_fade_finished E s) = None
  ∧ is_transitioning (on_fade_finished E s) = false.
Proof.
  split; [|reflexivity]. unfold on_fade_finished, fade_in.
  destruct (pending_command s) as [[file d is_image|]|] eqn:Hp;
    cbn [pending_command set_is_transitioning emit].
  - destruct is_image.
    + pose proof (display_image_frame E (Some file) d false
                    (set_pending_command None s)) as (_ & _ & _ & -> & _).
      reflexivity.
    + pose proof (display_video_frame file d (set_pending_command None s))
        as (_ & -> & _).
      reflexivity.
  - pose proof (display_image_frame E
                  (background_image (set_pending_command None s)) 0 true
                  (set_pending_command None s)) as (_ & _ & _ & -> & _).
    reflexivity.
  - exact Hp.
Qed.

Lemma pending_same (s s' : state) :
  pending_command s' = pending_command s →
  is_transitioning s' = is_transitioning s →
  pending_is_fading s → pending_is_fading s'.
Proof. unfold pending_is_fading. intros -> ->. auto. Qed.

Lemma fade_out_pending (s : state) : pending_is_fading (fade_out s).
Proof. intros _. apply fade_out_transitions. Qed.

Lemma play_media_pending (opacity : float) (file : string) (d : Z) (s : state) :
  pending_is_fading s → pending_is_fading (play_media E opacity file d s).
Proof.
  intros Hs. unfold play_media.
  destruct (path_exists E file); cbn [negb]; [|exact Hs].
  destruct (PrimFloat.ltb 0 opacity); [apply fade_out_pending|].
  set (s3 := set_current_file (Some file)
               (set_media_timer None (emit [Log (MsgPlaying file d)] s))).
  unfold fade_in. destruct (is_image_ext (suffix_lower E file)).
  - pose proof (display_image_frame E (Some file) d false s3)
      as (_ & _ & Ht & Hp & _).
    apply (pending_same s); [exact Hp | exact Ht | exact Hs].
  - pose proof (display_video_frame file d s3) as (Ht & Hp & _).
    apply (pending_same s); [exact Hp | exact Ht | exact Hs].
Qed.

Lemma stop_playback_pending (s : state) :
  pending_is_fading s → pending_is_fading (stop_playback E true s).
Proof.
  intros Hs. unfold stop_playback. cbn [andb].
  set (s2 := set_media_timer None (emit [Log MsgStopping] s)).
  destruct (background_available E (stop_video_thread s2));
    [apply fade_out_pending|].
  pose proof (stop_video_thread_frame s2) as (_ & _ & Ht & Hp & _).
  apply (pending_same s); [exact Hp | exact Ht | exact Hs].
Qed.

Lemma step_pending (s s' : state) (ev : event) :
  step E s ev = Some s' → pending_is_fading s → pending_is_fading s'.
Proof.
  intros Hstep Hs. destruct ev as [c op| | |f|last|id|]; cbn [step] in Hstep.
  - destruct (handle_ipc_command_cases E _ _ _ _ Hstep)
      as [-> | [(file & d & ->) | [-> | ->]]].
    + exact Hs.
    + apply play_media_pending. exact Hs.
    + apply stop_playback_pending. exact Hs.
    + unfold close.
      pose proof (stop_video_thread_frame (set_ipc_running false s))
        as (_ & _ & Ht & Hp & _).
      apply (pending_same s); [exact Hp | exact Ht | exact Hs].
  - injection Hstep as <-. exact Hs.
  - injection Hstep as <-. intros Hne.
    destruct (on_fade_finished_clears s) as [Hnone _]. contradiction.
  - injection Hstep as <-.
    pose proof (update_frame_frame E f s) as (_ & _ & Ht & Hp & _).
    apply (pending_same s); [exact Hp | exact Ht | exact Hs].
  - injection Hstep as <-. unfold on_video_finished.
    destruct last as [f|]; [|exact Hs].
    pose proof (update_frame_frame E f s) as (_ & _ & Ht & Hp & _).
    apply (pending_same s); [exact Hp | exact Ht | exact Hs].
  - injection Hstep as <-. unfold thread_exited.
    destruct (threads s !! id); exact Hs.
  - injection Hstep as <-. unfold display_initial_background.
    destruct (background_image s) as [bg|]; [|exact Hs].
    destruct (negb (String.eqb bg EmptyString) && path_exists E bg); [|exact Hs].
    pose proof (display_image_frame E (Some bg) 0 true s) as (_ & _ & Ht & Hp & _).
    apply (pending_same s); [exact Hp | exact Ht | exact Hs].
Qed.

Lemma run_pending (evs : list event) (s s' : state) :
  run E evs s = Some s' → pending_is_fading s → pending_is_fading s'.
Proof.
  revert s. induction evs as [|ev evs IH]; intros s; cbn [run].
  - intros [= <-]. auto.
  - destruct (step E s ev) as [s1|] eqn:Hstep; [|discriminate].
    intros Hrun Hs. apply (IH s1 Hrun). exact (step_pending _ _ _ Hstep Hs).
Qed.

(** X8: in every state the controller reaches, a recorded request
    ([pending_command]) is accompanied by a fade-out in flight, so when
    no fade is in flight nothing is pending; and the end of a fade always
    clears both the request and the flag, whatever the state. *)
Theorem pending_only_while_fading (background : option string)
    (evs : list event) (s : state) :
  run E evs (init_state background) = Some s →
  (is_transitioning s = false → pending_command s = None)
  ∧ pending_command (on_fade_finished E s) = None
  ∧ is_transitioning (on_fade_finished E s) = false.
Proof.
  intros Hrun.
  assert (Hs : pending_is_fading s).
  { apply (run_pending evs (init_state background) s Hrun).
    intros Hne. contradiction Hne. reflexivity. }
  split; [|apply on_fade_finished_clears].
  intros Hidle. destruct (pending_command s) as [p|] eqn:Hp; [|reflexivity].
  assert (Ht : is_transitioning s = true) by (apply Hs; rewrite Hp; discriminate).
  congruence.
Qed.

End PlayerMore.

Lemma frames_shown_at_fit_size_witness :
  Player.label_pixmap
    (Player.update_frame Examples.env (Frame 7 640 480) Examples.video_playing)
  = Some (Player.PixFrame (Frame 7 640 480) (960, 720)).
Proof.
  rewrite (proj2 (frames_shown_at_fit_size Examples.env (Some "bg.png"%string)
                    [ Player.InitialBackground;
                      Player.Command (Examples.play_command "a.mp4" 5) 1;
                      Player.FadeFinished; Player.FadeFinished;
                      Player.FrameReady (Frame 0 640 480) ]
                    Examples.video_playing (Frame 7 640 480)
                    ltac:(vm_compute; reflexivity))).
  vm_compute. reflexivity.
Defined.

Lemma pending_only_while_fading_witness :
  Player.pending_command Examples.video_playing = None.
Proof.
  exact (proj1 (pending_only_while_fading Examples.env (Some "bg.png"%string)
                  [ Player.InitialBackground;
                    Player.Command (Examples.play_command "a.mp4" 5) 1;
                    Player.FadeFinished; Player.FadeFinished;
                    Player.FrameReady (Frame 0 640 480) ]
                  Examples.video_playing ltac:(vm_compute; reflexivity))
           ltac:(vm_compute; reflexivity)).
Defined.

(** ** The controller: Stop, Play and Exit from start to end *)

Section PlayerTransitions.

Import Player.

Context (E : Env).


(** What [display_image] leaves on the label and in the timer: when it
    gets as far as [setPixmap], the new pixmap and, for a positive
    duration whose milliseconds fit a C int, the armed timer; the timer as
    before when they do not fit; both as before when [setPixmap] is not
    reached. *)
Lemma display_image_result (path : string) (d : Z) (bg : bool) (s : state) :
  let s' := display_image E (Some path) d bg s in
  match image_pixmap E path bg with
  | Some p =>
      label_pixmap s' = Some p
      ∧ media_timer s'
        = (if 0 <? d then
             match qt_int (d * 1000) with
             | Some msec => Some msec
             | None => media_timer s
             end
           else media_timer s)
  | None => label_pixmap s' = label_pixmap s ∧ media_timer s' = media_timer s
  end.
Proof.
  unfold image_pixmap, display_image. cbn [mbind option_bind default].
  destruct (image_open E path) as [[w h]|]; cbn [mbind option_bind fst snd];
    [|split; reflexivity].
  destruct (Scaling.image_geometry bg w h (screen_size E).1 (screen_size E).2)
    as [g|]; cbn [mbind option_bind]; [|split; reflexivity].
  destruct (resizable (Scaling.new_size g)); [|split; reflexivity].
  destruct (Scaling.crop_box g), (0 <? d); try destruct (qt_int (d * 1000));
    split; reflexivity.
Qed.

Lemma qt_int_fits (z : Z) :
  -2147483648 ≤ z ≤ 2147483647 → qt_int z = Some z.
Proof.
  intros [Hlo Hhi]. unfold qt_int.
  destruct (Z.leb_spec (-2147483648) z); [|lia].
  destruct (Z.leb_spec z 2147483647); [reflexivity | lia].
Qed.

Lemma qt_int_overflows (z : Z) : 2147483647 < z → qt_int z = None.
Proof.
  intros Hhi. unfold qt_int.
  destruct (Z.leb_spec z 2147483647); [lia|]. rewrite andb_false_r. reflexivity.
Qed.


(** How a successful [display_image] ends: with [setPixmap], or, when the
    milliseconds of the duration do not fit a C int, with the error line
    that follows it. *)
Lemma display_image_ends (path : string) (d : Z) (bg : bool) (p : pixmap)
    (s : state) :
  image_pixmap E path bg = Some p →
  ∃ pre, displayed_files pre = []
    ∧ trace (display_image E (Some path) d bg s)
      = trace s ++ pre ++ SetPixmap p ::
        (if (0 <? d) && negb (bool_decide (is_Some (qt_int (d * 1000))))
         then [Log (MsgErrorDisplayingImage (Some path))] else []).
Proof.
  unfold image_pixmap, display_image. cbn [mbind option_bind default].
  destruct (image_open E path) as [[w h]|]; [|discriminate].
  cbn [mbind option_bind fst snd].
  destruct (Scaling.image_geometry _ _ _ _ _) as [g|]; [|discriminate].
  cbn [mbind option_bind].
  destruct (resizable (Scaling.new_size g)); [|discriminate].
  intros [= <-].
  destruct (Scaling.crop_box g), (0 <? d);
    try destruct (qt_int (d * 1000)); cbn.
  all: first
    [ exists [Log (MsgImageSizeAdjusted g); Log MsgBackgroundCropped];
      split; [reflexivity | rewrite <- !app_assoc; reflexivity]
    | exists [Log (MsgImageSizeAdjusted g)];
      split; [reflexivity | rewrite <- !app_assoc; reflexivity] ].
Qed.

(** The timer after a successful [display_image] that started with the
    timer stopped, and how its trace ends. *)
Lemma display_image_timer (path : string) (d : Z) (bg : bool) (p : pixmap)
    (s : state) :
  image_pixmap E path bg = Some p → media_timer s = None →
  let s' := display_image E (Some path) d bg s in
  (d ≤ 0 → media_timer s' = None)
  ∧ (0 < d → d * 1000 ≤ 2147483647 → media_timer s' = Some (d * 1000))
  ∧ (d * 1000 ≤ 2147483647 → ∃ pre, trace s' = pre ++ [SetPixmap p])
  ∧ (2147483647 < d * 1000 →
       media_timer s' = None
       ∧ ∃ pre, trace s'
                = pre ++ [SetPixmap p; Log (MsgErrorDisplayingImage (Some path))]).
Proof.
  intros Hp Hm s'.
  pose proof (display_image_result path d bg s) as Hr. cbn zeta in Hr.
  rewrite Hp, Hm in Hr. destruct Hr as [_ Hr]. fold s' in Hr.
  destruct (display_image_ends path d bg p s Hp) as (pre & _ & Htr). fold s' in Htr.
  split; [|split; [|split]].
  - intros Hd. rewrite Hr. destruct (Z.ltb_spec 0 d); [lia | reflexivity].
  - intros Hd Hfit. rewrite Hr. destruct (Z.ltb_spec 0 d); [|lia].
    rewrite qt_int_fits by lia. reflexivity.
  - intros Hfit. exists (trace s ++ pre). rewrite Htr, <- app_assoc.
    destruct (Z.ltb_spec 0 d); cbn [andb]; [|reflexivity].
    rewrite qt_int_fits by lia. reflexivity.
  - intros Hover. rewrite Hr, Htr, (qt_int_overflows _ Hover).
    destruct (Z.ltb_spec 0 d); [|lia]. split; [reflexivity|].
    exists (trace s ++ pre). rewrite <- app_assoc. reflexivity.
Qed.





(** X10: when the label is fully transparent (opacity not above 0),
    [play_media] on an existing file starts no fade-out and records no
    request: it displays at once and starts the fade-in. For an image it
    leaves the thread table untouched, so a producer that is running
    keeps running; on success the pixmap is set, and a positive duration
    arms the timer with its milliseconds when they fit a C int
    (duration * 1000 <= 2147483647); when they do not, the pixmap is set
    all the same, the error is logged and the timer stays stopped. For a
    video the running producer is stopped first, the new one is appended,
    and the timer stays stopped. *)
Theorem direct_play (s : state) (opacity : float) (file : string) (d : Z) :
  path_exists E file = true → PrimFloat.ltb 0 opacity = false →
  let is_image := is_image_ext (suffix_lower E file) in
  let s' := play_media E opacity file d s in
  (pending_command s' = pending_command s
   ∧ is_transitioning s' = is_transitioning s
   ∧ fade_outs (trace s') = fade_outs (trace s)
   ∧ current_file s' = Some file
   ∧ last (trace s') = Some (FadeStart 0 1))
  ∧ (is_image = true →
       threads s' = threads s ∧ video_thread s' = video_thread s
       ∧ match image_pixmap E file false with
         | Some p =>
             label_pixmap s' = Some p
             ∧ (d ≤ 0 → media_timer s' = None)
             ∧ (0 < d → d * 1000 ≤ 2147483647 →
                  media_timer s' = Some (d * 1000))
             ∧ (d * 1000 ≤ 2147483647 →
                  ∃ pre, trace s' = pre ++ [SetPixmap p; FadeStart 0 1])
             ∧ (2147483647 < d * 1000 →
                  media_timer s' = None
                  ∧ ∃ pre, trace s'
                           = pre ++ [ SetPixmap p;
                                      Log (MsgErrorDisplayingImage (Some file));
                                      FadeStart 0 1 ])
         | None => label_pixmap s' = label_pixmap s ∧ media_timer s' = None
         end)
  ∧ (is_image = false →
       threads s' = threads (stop_video_thread s) ++ [VThread file d true true]
       ∧ video_thread s' = Some (length (threads s))
       ∧ media_timer s' = None ∧ label_pixmap s' = label_pixmap s).
Proof.
  intros He Ho is_image s'.
  set (s3 := set_current_file (Some file)
               (set_media_timer None (emit [Log (MsgPlaying file d)] s))).
  assert (Hs' : s' = fade_in (if is_image
                              then display_image E (Some file) d false s3
                              else display_video file d s3)).
  { unfold s', play_media. rewrite He, Ho. reflexivity. }
  assert (Hf3 : fade_outs (trace s3) = fade_outs (trace s)).
  { cbn. rewrite fade_outs_app. cbn. lia. }
  rewrite Hs'. unfold fade_in. destruct is_image eqn:Himg.
  - pose proof (display_image_frame E (Some file) d false s3)
      as (Hth & Hv & Htr & Hp & Hc & _).
    pose proof (display_image_result file d false s3) as Hr. cbn zeta in Hr.
    split; [|split; [|intros [=]]].
    + cbn [pending_command is_transitioning current_file trace emit].
      rewrite Hp, Htr, Hc, fade_outs_app, display_image_fades, Hf3, last_snoc.
      cbn. repeat split. lia.
    + intros _. cbn [threads video_thread label_pixmap media_timer trace emit].
      rewrite Hth, Hv. split; [reflexivity|]. split; [reflexivity|].
      destruct (image_pixmap E file false) as [p|] eqn:Hpix; [|exact Hr].
      destruct (display_image_timer file d false p s3 Hpix eq_refl)
        as (Hnone & Harmed & Hfits & Hover).
      split; [apply Hr|]. split; [exact Hnone|]. split; [exact Harmed|].
      split.
      * intros Hfit. destruct (Hfits Hfit) as (pre & ->).
        exists pre. rewrite <- app_assoc. reflexivity.
      * intros Hbig. destruct (Hover Hbig) as (Hm & pre & ->).
        split; [exact Hm|]. exists pre. rewrite <- app_assoc. reflexivity.
  - pose proof (display_video_frame file d s3)
      as (Htr & Hp & Hc & _ & Hl & Hm & Htrace).
    destruct (display_video_threads file d s3) as (Hth & Hv).
    split; [|split; [intros [=]|]].
    + cbn [pending_command is_transitioning current_file trace emit].
      rewrite Hp, Htr, Hc, fade_outs_app, display_video_fades, Hf3, last_snoc.
      cbn. repeat split. lia.
    + intros _. cbn [threads video_thread label_pixmap media_timer emit].
      rewrite Hth, Hv, Hm, Hl. repeat split.
      f_equal. apply stop_video_thread_threads; reflexivity.
Qed.

(** X11: in every state the controller reaches, an EXIT command stops
    and joins the producer that is running, clears the IPC thread's flag
    and closes the window; it leaves the picture, the timer and a pending
    request as they were. *)
Theorem exit_stops_everything (background : option string)
    (evs : list event) (s : state) (c : gmap string pyval) (opacity : float) :
  run E evs (init_state background) = Some s →
  c !! "command"%string = Some (PStr "EXIT") →
  ∃ s', handle_ipc_command E opacity c s = Some s'
    ∧ alive_count (threads s') = 0%nat
    ∧ ipc_running s' = false
    ∧ trace s' = trace s ++ [CloseWindow]
    ∧ label_pixmap s' = label_pixmap s
    ∧ media_timer s' = media_timer s
    ∧ pending_command s' = pending_command s.
Proof.
  intros Hrun Hc. exists (close s). split.
  - unfold handle_ipc_command. rewrite Hc.
    case_decide; [discriminate|]. case_decide; [discriminate|].
    case_decide; [reflexivity | contradiction].
  - assert (Hs : single_session (set_ipc_running false s)).
    { apply (run_single E evs (init_state background) s Hrun).
      intros i t Hi. destruct i; discriminate Hi. }
    destruct (stop_video_thread_single _ Hs) as [_ Hz].
    pose proof (stop_video_thread_frame (set_ipc_running false s))
      as (Ht & _ & _ & Hp & _ & _ & Hl & Hm & _).
    unfold close.
    cbn [threads ipc_running trace label_pixmap media_timer pending_command emit].
    rewrite Hz, Ht, Hp, Hl, Hm. repeat split.
    unfold stop_video_thread. repeat case_match; reflexivity.
Qed.


End PlayerTransitions.


Lemma direct_play_witness :
  Player.threads (Player.play_media Examples.env 0 "b.png" 2 Examples.video_playing)
  = Player.threads Examples.video_playing
  ∧ Player.alive_count
      (Player.threads
         (Player.play_media Examples.env 0 "b.png" 2 Examples.video_playing))
    = 1%nat
  ∧ Player.media_timer
      (Player.play_media Examples.env 0 "b.png" 2 Examples.video_playing)
    = Some 2000
  ∧ Player.media_timer
      (Player.play_media Examples.env 0 "b.png" 2147484 Examples.video_playing)
    = None.
Proof.
  pose proof (direct_play Examples.env Examples.video_playing 0 "b.png" 2
                eq_refl eq_refl) as (_ & Himg & _).
  pose proof (direct_play Examples.env Examples.video_playing 0 "b.png" 2147484
                eq_refl eq_refl) as (_ & Hbig & _).
  destruct (Himg eq_refl) as (Hth & _ & Hpix).
  destruct (Hbig eq_refl) as (_ & _ & Hpix').
  change (Player.image_pixmap Examples.env "b.png" false)
    with (Some (Player.PixImage "b.png" (Scaling.Geometry (1028, 719) None)))
    in Hpix, Hpix'.
  destruct Hpix as (_ & _ & Harmed & _).
  destruct Hpix' as (_ & _ & _ & _ & Hover).
  split; [exact Hth|]. split; [rewrite Hth; vm_compute; reflexivity|].
  split; [exact (Harmed ltac:(lia) ltac:(lia)) | exact (proj1 (Hover ltac:(lia)))].
Defined.

Lemma exit_stops_everything_witness :
  ∃ s', Player.handle_ipc_command Examples.env 1 Client.exit_request
          Examples.video_playing = Some s'
    ∧ Player.alive_count (Player.threads s') = 0%nat
    ∧ Player.ipc_running s' = false.
Proof.
  destruct (exit_stops_everything Examples.env (Some "bg.png"%string)
              [ Player.InitialBackground;
                Player.Command (Examples.play_command "a.mp4" 5) 1;
                Player.FadeFinished; Player.FadeFinished;
                Player.FrameReady (Frame 0 640 480) ]
              Examples.video_playing Client.exit_request 1
              ltac:(vm_compute; reflexivity) eq_refl)
    as (s' & Hh & Hz & Hipc & _).
  exists s'. split; [exact Hh | split; [exact Hz | exact Hipc]].
Defined.


(** ** The controller: what a timeout holds, and what a failed display
       leaves behind *)

Section PlayerHolds.

Import Player.

Context (E : Env).







End PlayerHolds.





(** ** Scaling: where the crop box lies *)

Section ScalingMore.

Import Scaling.

(** X13: when [display_image] crops the background, the crop box has
    the screen's size, and on each axis on which the resized picture is
    at least as large as the screen the box lies inside the picture; on
    an axis on which it is smaller the box starts before the picture's
    edge and does not end inside it, so the crop pads instead of
    cutting. *)
Theorem crop_box_inside_picture (w h W H : Z) (g : geometry) (b : box) :
  image_geometry true w h W H = Some g → crop_box g = Some b →
  box_width b = W ∧ box_height b = H
  ∧ (W ≤ (new_size g).1 → 0 ≤ left b ∧ right b ≤ (new_size g).1)
  ∧ (H ≤ (new_size g).2 → 0 ≤ top b ∧ bottom b ≤ (new_size g).2)
  ∧ ((new_size g).1 < W → left b < 0 ∧ (new_size g).1 ≤ right b)
  ∧ ((new_size g).2 < H → top b < 0 ∧ (new_size g).2 ≤ bottom b).
Proof.
  unfold image_geometry.
  destruct (Py.truediv W w) as [rw|]; [|discriminate].
  destruct (Py.truediv H h) as [rh|]; [|discriminate].
  cbn [mbind option_bind andb].
  destruct (scaled w (Py.max rw rh)) as [nw|]; [|discriminate].
  destruct (scaled h (Py.max rw rh)) as [nh|]; [|discriminate].
  cbn [mbind option_bind].
  destruct ((W <? nw) || (H <? nh)); intros [= <-]; [|discriminate].
  intros [= <-]. unfold box_width, box_height, Py.floordiv.
  cbn [new_size left right top bottom fst snd].
  pose proof (Z.div_mod (nw - W) 2 ltac:(lia)) as Hx.
  pose proof (Z.mod_pos_bound (nw - W) 2 ltac:(lia)) as Hxb.
  pose proof (Z.div_mod (nh - H) 2 ltac:(lia)) as Hy.
  pose proof (Z.mod_pos_bound (nh - H) 2 ltac:(lia)) as Hyb.
  repeat split; lia.
Qed.

Lemma crop_box_inside_picture_witness :
  Scaling.box_width (Scaling.Box 0 120 1280 840) = 1280
  ∧ 0 ≤ Scaling.top (Scaling.Box 0 120 1280 840)
  ∧ Scaling.bottom (Scaling.Box 0 120 1280 840) ≤ 960.
Proof.
  destruct (crop_box_inside_picture 800 600 1280 720
              (Geometry (1280, 960) (Some (Box 0 120 1280 840)))
              (Box 0 120 1280 840) ltac:(vm_compute; reflexivity) eq_refl)
    as (Hw & _ & _ & Hv & _).
  split; [exact Hw | apply Hv; cbn; lia].
Defined.

End ScalingMore.
